(** * ubc-food-safety: the fetch-aggregate pipeline of [main.go]

    A shallow embedding of the data model and of the pipeline stages of
    [main.go], followed by the properties of the geocode cache, the
    geographic filter, the statistics aggregator and the detail fetch
    scheduler, and then of the listing, the report and the runs of
    [generateRestaurantsList].

    Conventions of the embedding.
    - Go's [int] is a 64-bit two's complement integer: it is a [Z] kept in
      range by [GoInt.wrap]; [+] is [GoInt.add].
    - [float64] is Rocq's primitive binary64 [float].
    - Go strings are byte strings: [string].
    - [map[string]latLong] is a [gmap string latLong] when it is not nil,
      as [makeDB] builds it; [cacheMap] adds the nil map, which the decoder
      leaves in [db.GeocodeCache] for a store file that holds [null] there,
      and [db_geocode] is [geocode] on a cache that may be nil.
    - A [[]*restaurant] holds pairwise distinct, non-nil pointers (this is
      what [getRestaurants] and the JSON decoder build): it is modelled by
      the list of the records pointed to, and an assignment through a
      pointer is the replacement of the record at its position.
    - The outside world (the geocoding service, the web server, the clock,
      [time.Parse], [strconv.Atoi]) enters as Section variables; concrete
      instances used to run the model are in [GoTime], [Demo] and
      [DemoRun]. *)

From Stdlib Require Import ZArith Lia List String Ascii.
From Stdlib Require Import Floats.PrimFloat.
From stdpp Require Import base option list gmap strings relations pretty sorting.

Local Open Scope string_scope.
Local Open Scope list_scope.

(** ** Go's [int] *)

Module GoInt.
Definition min_int : Z := (- 2 ^ 63)%Z.
Definition max_int : Z := (2 ^ 63 - 1)%Z.

(** Reduction of a mathematical integer to the 64-bit signed range. *)
Definition wrap (z : Z) : Z := ((z + 2 ^ 63) mod 2 ^ 64 - 2 ^ 63)%Z.

Definition add (a b : Z) : Z := wrap (a + b).

Definition in_range (z : Z) : Prop := (min_int <= z <= max_int)%Z.
End GoInt.

(** ** Errors and results *)

Inductive error : Type :=
| AddressEmpty                      (* errors.New("address empty") *)
| ExternalError (msg : string).     (* an error value built outside main.go *)

Inductive result (A : Type) : Type :=
| Ok (a : A)
| Err (e : error).
Arguments Ok {A} a.
Arguments Err {A} e.

(** ** Data model *)

Record latLong : Type := { Lat : float; Long : float }.

(** [latLong{}] *)
Definition zeroLatLong : latLong := {| Lat := 0%float; Long := 0%float |}.

Record inspection : Type := {
  Date : string;
  Number : string;
  Reason : string;
  NonCritical : Z;
  Critical : Z
}.

Record restaurant : Type := {
  ID : string;
  Name : string;
  FacilityType : string;
  Community : string;
  SiteAddress : string;
  PhoneNumber : string;
  MoreDetailsURL : string;
  OutstandingNonCriticalInfractions : Z;
  OutstandingCriticalInfractions : Z;
  Inspections : list inspection;
  LatLong : latLong;
  InfractionsPastYear : Z;
  InfractionsTotal : Z
}.

Record db : Type := {
  Restaurants : list restaurant;
  GeocodeCache : gmap string latLong
}.

Definition makeDB : db := {| Restaurants := []; GeocodeCache := ∅ |}.

(** Assignments to the fields of a restaurant record. *)

Definition set_LatLong (ll : latLong) (r : restaurant) : restaurant :=
  {| ID := ID r; Name := Name r; FacilityType := FacilityType r;
     Community := Community r; SiteAddress := SiteAddress r;
     PhoneNumber := PhoneNumber r; MoreDetailsURL := MoreDetailsURL r;
     OutstandingNonCriticalInfractions := OutstandingNonCriticalInfractions r;
     OutstandingCriticalInfractions := OutstandingCriticalInfractions r;
     Inspections := Inspections r;
     LatLong := ll;
     InfractionsPastYear := InfractionsPastYear r;
     InfractionsTotal := InfractionsTotal r |}.

Definition set_stats (count total : Z) (r : restaurant) : restaurant :=
  {| ID := ID r; Name := Name r; FacilityType := FacilityType r;
     Community := Community r; SiteAddress := SiteAddress r;
     PhoneNumber := PhoneNumber r; MoreDetailsURL := MoreDetailsURL r;
     OutstandingNonCriticalInfractions := OutstandingNonCriticalInfractions r;
     OutstandingCriticalInfractions := OutstandingCriticalInfractions r;
     Inspections := Inspections r;
     LatLong := LatLong r;
     InfractionsPastYear := count;
     InfractionsTotal := total |}.

Definition set_OutstandingNonCritical (n : Z) (r : restaurant) : restaurant :=
  {| ID := ID r; Name := Name r; FacilityType := FacilityType r;
     Community := Community r; SiteAddress := SiteAddress r;
     PhoneNumber := PhoneNumber r; MoreDetailsURL := MoreDetailsURL r;
     OutstandingNonCriticalInfractions := n;
     OutstandingCriticalInfractions := OutstandingCriticalInfractions r;
     Inspections := Inspections r;
     LatLong := LatLong r;
     InfractionsPastYear := InfractionsPastYear r;
     InfractionsTotal := InfractionsTotal r |}.

Definition set_OutstandingCritical (n : Z) (r : restaurant) : restaurant :=
  {| ID := ID r; Name := Name r; FacilityType := FacilityType r;
     Community := Community r; SiteAddress := SiteAddress r;
     PhoneNumber := PhoneNumber r; MoreDetailsURL := MoreDetailsURL r;
     OutstandingNonCriticalInfractions := OutstandingNonCriticalInfractions r;
     OutstandingCriticalInfractions := n;
     Inspections := Inspections r;
     LatLong := LatLong r;
     InfractionsPastYear := InfractionsPastYear r;
     InfractionsTotal := InfractionsTotal r |}.

Definition set_Inspections (insps : list inspection) (r : restaurant) : restaurant :=
  {| ID := ID r; Name := Name r; FacilityType := FacilityType r;
     Community := Community r; SiteAddress := SiteAddress r;
     PhoneNumber := PhoneNumber r; MoreDetailsURL := MoreDetailsURL r;
     OutstandingNonCriticalInfractions := OutstandingNonCriticalInfractions r;
     OutstandingCriticalInfractions := OutstandingCriticalInfractions r;
     Inspections := insps;
     LatLong := LatLong r;
     InfractionsPastYear := InfractionsPastYear r;
     InfractionsTotal := InfractionsTotal r |}.

(** ** The two functions of package [strings] that [geocode] calls *)

Module GoStrings.
Definition newline : ascii := "010"%char.

(** [strings.Split(s, sep)] for a separator of one byte: the pieces of [s]
    between the occurrences of [sep]; never the empty list. *)
Fixpoint Split (s : string) (sep : ascii) : list string :=
  match s with
  | EmptyString => [EmptyString]
  | String c s' =>
      if Ascii.eqb c sep then EmptyString :: Split s' sep
      else match Split s' sep with
           | piece :: pieces => String c piece :: pieces
           | [] => [String c EmptyString]
           end
  end.

(** [strings.Join(elems, sep)] *)
Fixpoint Join (elems : list string) (sep : string) : string :=
  match elems with
  | [] => EmptyString
  | [e] => e
  | e :: rest => String.append e (String.append sep (Join rest sep))
  end.
End GoStrings.

(** The key under which [geocode] looks an address up: its lines joined by
    a comma and a space. *)
Definition normalize (address : string) : string :=
  GoStrings.Join (GoStrings.Split address GoStrings.newline) ", ".

(** ** Geocode cache and geocoding pass *)

#[warnings="-inexact-float"]
Definition borderLng : float := (-123.227883)%float.

Definition vancouverWestside : string := "Vancouver - Westside".

Section Geocoding.
(** [geocoder.Geocode]: the geocoding service. Its answer to a request may
    depend on the requests made before, which are its first argument. *)
Variable Geocode : list string -> string -> result (float * float).

(** [(db *db) geocode(address)]. The state is the cache together with the
    log of the requests sent to the service so far. *)
Definition geocode (address : string)
    (cache : gmap string latLong) (calls : list string)
  : result latLong * gmap string latLong * list string :=
  if Nat.eqb (String.length address) 0 then (Err AddressEmpty, cache, calls)
  else
    let address := normalize address in
    match cache !! address with
    | Some cached => (Ok cached, cache, calls)
    | None =>
        match Geocode calls address with
        | Err e => (Err e, cache, calls ++ [address])
        | Ok (lat, lng) =>
            let cached := {| Lat := lat; Long := lng |} in
            (Ok cached, <[address := cached]> cache, calls ++ [address])
        end
    end.

(** The loop of [geocodeRestaurants] over the records still to visit. The
    records come back as the loop leaves them: on an error the record it
    failed on and those after it are as they were. *)
Fixpoint geocodeLoop (rs : list restaurant)
    (cache : gmap string latLong) (calls : list string)
  : list restaurant * gmap string latLong * list string * option error :=
  match rs with
  | [] => ([], cache, calls, None)
  | r :: rest =>
      if negb (String.eqb (Community r) vancouverWestside) then
        let '(rest', cache', calls', err) := geocodeLoop rest cache calls in
        (r :: rest', cache', calls', err)
      else
        match geocode (SiteAddress r) cache calls with
        | (Err e, cache1, calls1) => (r :: rest, cache1, calls1, Some e)
        | (Ok ll, cache1, calls1) =>
            let '(rest', cache', calls', err) := geocodeLoop rest cache1 calls1 in
            (set_LatLong ll r :: rest', cache', calls', err)
        end
  end.

(** [(db *db) geocodeRestaurants()] *)
Definition geocodeRestaurants (d : db) (calls : list string)
  : db * list string * option error :=
  let '(rs, cache, calls', err) :=
    geocodeLoop (Restaurants d) (GeocodeCache d) calls in
  ({| Restaurants := rs; GeocodeCache := cache |}, calls', err).
End Geocoding.

(** ** Geographic filter *)

(** [(db *db) getUBCRestaurants()]: the loop appends to [rs], which starts
    as the nil slice. *)
Definition getUBCRestaurants (d : db) : list restaurant :=
  fold_left
    (fun rs r => if PrimFloat.ltb (Long (LatLong r)) borderLng then rs ++ [r] else rs)
    (Restaurants d) [].

(** ** Statistics aggregator *)

Definition dateLayout : string := "02-Jan-2006".

Section Statistics.
(** [time.Parse(layout, value)]; an instant is its number of nanoseconds
    since the Unix epoch. *)
Variable time_Parse : string -> string -> result Z.
(** [t.AddDate(years, months, days)] *)
Variable time_AddDate : Z -> Z -> Z -> Z -> Z.

(** [t.After(u)] *)
Definition time_After (t u : Z) : bool := (u <? t)%Z.

(** The inner loop of [computeInfractionsPastYear], from the values
    [count] and [total] have when it reaches the inspections [insps]. *)
Fixpoint sumInspections (yearAgo : Z) (insps : list inspection) (count total : Z)
  : result (Z * Z) :=
  match insps with
  | [] => Ok (count, total)
  | i :: rest =>
      match time_Parse dateLayout (Date i) with
      | Err e => Err e
      | Ok date =>
          let count :=
            if time_After date yearAgo
            then GoInt.add count (GoInt.add (Critical i) (NonCritical i))
            else count in
          let total := GoInt.add total (GoInt.add (Critical i) (NonCritical i)) in
          sumInspections yearAgo rest count total
      end
  end.

(** The outer loop: the records as the loop leaves them, and the error it
    returned, if any. *)
Fixpoint statsLoop (yearAgo : Z) (rs : list restaurant)
  : list restaurant * option error :=
  match rs with
  | [] => ([], None)
  | r :: rest =>
      match sumInspections yearAgo (Inspections r) 0 0 with
      | Err e => (r :: rest, Some e)
      | Ok (count, total) =>
          let '(rest', err) := statsLoop yearAgo rest in
          (set_stats count total r :: rest', err)
      end
  end.

(** [computeInfractionsPastYear(rs)], run when the clock reads [now]. *)
Definition computeInfractionsPastYear (now : Z) (rs : list restaurant)
  : list restaurant * option error :=
  let yearAgo := time_AddDate now (-1) 0 0 in
  statsLoop yearAgo rs.

(** [generateRestaurantsList] from the call of [computeInfractionsPastYear]
    on: the error is returned as it is (the deferred [save] then writes the
    records as the aggregator left them); sorting and printing follow only
    when there is none. *)
Definition generateRestaurantsList_stats (now : Z) (d : db) : db * option error :=
  let '(rs, err) := computeInfractionsPastYear now (Restaurants d) in
  ({| Restaurants := rs; GeocodeCache := GeocodeCache d |}, err).

(** [main]: [log.Fatal] ends the process with status 1. *)
Definition main_exit_status (err : option error) : Z :=
  match err with
  | Some _ => 1
  | None => 0
  end.
End Statistics.

(** ** Detail fetch scheduler *)

Definition workers : nat := 16.

(** What [fetchDetail] reads off a detail page: the trimmed texts of the
    label and of the field of each [tr.nozebrastripes] row, and the trimmed
    texts of the five cells of each [tr.hovereffect] row, in document
    order. *)
Record inspectionRow : Type := {
  inspectionDate : string;
  inspectionNumber : string;
  inspectionType : string;
  criticalInfractionsCount : string;
  nonCriticalInfractionsCount : string
}.

Record document : Type := {
  summaryRows : list (string * string);
  inspectionRows : list inspectionRow
}.

(** The scheduler's workers. *)
Inductive worker : Type :=
| Receiving            (* at [for r := range rsChan] *)
| Fetching (i : nat)   (* received the record at position [i], about to call [fetchDetail] *)
| Exited.              (* returned; [wg.Done] has run *)

(** The goroutine that called [fetchDetails]. *)
Inductive producer : Type :=
| Sending    (* in the loop over [rs], at position [next] *)
| Waiting    (* closed the channel, in [wg.Wait] *)
| Returned.  (* [fetchDetails] returned *)

(** A state of [fetchDetails(rs)]: the records [rs] points to, the position
    of the producer's loop, the content of the buffered channel (positions
    in [rs], oldest first), the sixteen workers and the producer. [sent] and
    [fetched] record, in order, the positions sent on the channel and those
    [fetchDetail] was called on. *)
Record sched : Type := Sched {
  store : list restaurant;
  next : nat;
  chan : list nat;
  pool : list worker;
  prod : producer;
  sent : list nat;
  fetched : list nat
}.

Section Scheduler.
(** [get(addr)]: the request to the web server and the parsing of its
    answer into a document. *)
Variable get : string -> result document.
(** The value [strconv.Atoi] returns (0 with an error, which is only
    logged). *)
Variable Atoi : string -> Z.
(** [*refetch] *)
Variable refetch : bool.

Definition summaryRow (r : restaurant) (row : string * string) : restaurant :=
  let '(label, field) := row in
  if String.eqb label "Outstanding Non-Critical Infractions" then
    set_OutstandingNonCritical (Atoi field) r
  else if String.eqb label "Outstanding Critical Infractions" then
    set_OutstandingCritical (Atoi field) r
  else r.

Definition inspectionOfRow (row : inspectionRow) : inspection :=
  {| Date := inspectionDate row;
     Number := inspectionNumber row;
     Reason := inspectionType row;
     NonCritical := Atoi (nonCriticalInfractionsCount row);
     Critical := Atoi (criticalInfractionsCount row) |}.

(** [fetchDetail(r)]: the record as the call leaves it, and its error. *)
Definition fetchDetail (r : restaurant) : restaurant * option error :=
  match get (MoreDetailsURL r) with
  | Err e => (r, Some e)
  | Ok doc =>
      let r := fold_left summaryRow (summaryRows doc) r in
      (set_Inspections (map inspectionOfRow (inspectionRows doc)) r, None)
  end.

(** The condition under which the producer sends [r]. *)
Definition eligible (r : restaurant) : bool :=
  Nat.eqb (length (Inspections r)) 0 || refetch.

(** The state in which the producer enters its loop: the channel is empty
    and every worker is at its [range]. *)
Definition start (rs : list restaurant) : sched :=
  Sched rs 0 [] (replicate workers Receiving) Sending [] [].

(** One step of one goroutine. A send needs room in the channel of
    capacity [workers]; a receive needs an element; a worker leaves its
    [range] when the channel is closed and empty; [wg.Wait] returns when
    every worker has exited. *)
Inductive step : sched -> sched -> Prop :=
| step_skip st nx ch pl sn ft r :
    st !! nx = Some r -> eligible r = false ->
    step (Sched st nx ch pl Sending sn ft)
         (Sched st (S nx) ch pl Sending sn ft)
| step_send st nx ch pl sn ft r :
    st !! nx = Some r -> eligible r = true -> length ch < workers ->
    step (Sched st nx ch pl Sending sn ft)
         (Sched st (S nx) (ch ++ [nx]) pl Sending (sn ++ [nx]) ft)
| step_close st nx ch pl sn ft :
    st !! nx = None ->
    step (Sched st nx ch pl Sending sn ft)
         (Sched st nx ch pl Waiting sn ft)
| step_recv st nx ch pl pd sn ft k i :
    pl !! k = Some Receiving ->
    step (Sched st nx (i :: ch) pl pd sn ft)
         (Sched st nx ch (<[k := Fetching i]> pl) pd sn ft)
| step_fetch_ok st nx ch pl pd sn ft k i r r' :
    pl !! k = Some (Fetching i) -> st !! i = Some r ->
    fetchDetail r = (r', None) ->
    step (Sched st nx ch pl pd sn ft)
         (Sched (<[i := r']> st) nx ch (<[k := Receiving]> pl) pd sn (ft ++ [i]))
| step_fetch_err st nx ch pl pd sn ft k i r r' e :
    pl !! k = Some (Fetching i) -> st !! i = Some r ->
    fetchDetail r = (r', Some e) ->
    step (Sched st nx ch pl pd sn ft)
         (Sched (<[i := r']> st) nx ch (<[k := Exited]> pl) pd sn (ft ++ [i]))
| step_exit st nx pl pd sn ft k :
    pl !! k = Some Receiving -> pd <> Sending ->
    step (Sched st nx [] pl pd sn ft)
         (Sched st nx [] (<[k := Exited]> pl) pd sn ft)
| step_return st nx ch pl sn ft :
    Forall (fun w => w = Exited) pl ->
    step (Sched st nx ch pl Waiting sn ft)
         (Sched st nx ch pl Returned sn ft).

(** The states an execution of [fetchDetails(rs)] goes through. *)
Definition reachable (rs : list restaurant) (s : sched) : Prop :=
  rtc step (start rs) s.

(** The positions below [n] whose record in [rs] the producer sends. *)
Definition scheduled (rs : list restaurant) (n : nat) : list nat :=
  filter (fun i => from_option eligible false (rs !! i) = true) (seq 0 n).
End Scheduler.

(** ** A model of [time.Parse] and [AddDate] for the layout of the dates

    [GoTime.Parse] follows package [time] on the layout ["02-Jan-2006"]: two
    digits, a dash, the three letters of the month in any case, a dash, four
    digits, nothing after, and a day that exists in that month; the instant
    is midnight UTC. [GoTime.AddDate] is [AddDate] on an instant read in
    UTC. *)

Module GoTime.
Local Open Scope Z_scope.

Definition isDigit (c : ascii) : bool :=
  (48 <=? Z.of_nat (nat_of_ascii c)) && (Z.of_nat (nat_of_ascii c) <=? 57).

Definition digit (c : ascii) : Z := Z.of_nat (nat_of_ascii c) - 48.

(** [getnum(s, true)]: two digits. *)
Definition getnum2 (s : string) : option (Z * string) :=
  match s with
  | String a (String b rest) =>
      if isDigit a && isDigit b then Some (digit a * 10 + digit b, rest) else None
  | _ => None
  end.

(** The four digits of a [2006] year. *)
Definition getyear (s : string) : option (Z * string) :=
  match s with
  | String a (String b (String c (String d rest))) =>
      if isDigit a && isDigit b && isDigit c && isDigit d
      then Some (((digit a * 10 + digit b) * 10 + digit c) * 10 + digit d, rest)
      else None
  | _ => None
  end.

Definition dash (s : string) : option string :=
  match s with
  | String c rest => if Ascii.eqb c "-"%char then Some rest else None
  | EmptyString => None
  end.

(** Bytes compared as [match] does: equal, or letters equal once both are
    put in lower case. *)
Definition sameLetter (c1 c2 : ascii) : bool :=
  if Ascii.eqb c1 c2 then true
  else
    let l1 := N.lor (N_of_ascii c1) 32 in
    let l2 := N.lor (N_of_ascii c2) 32 in
    (N.eqb l1 l2 && N.leb 97 l1 && N.leb l1 122)%N.

(** [match(value[0:len(name)], name)] when [value] is long enough. *)
Fixpoint hasName (name value : string) : option string :=
  match name, value with
  | EmptyString, rest => Some rest
  | String c name', String v value' =>
      if sameLetter v c then hasName name' value' else None
  | String _ _, EmptyString => None
  end.

Definition shortMonthNames : list string :=
  ["Jan"; "Feb"; "Mar"; "Apr"; "May"; "Jun";
   "Jul"; "Aug"; "Sep"; "Oct"; "Nov"; "Dec"]%string.

(** [lookup(shortMonthNames, value)], the month counted from [month]. *)
Fixpoint lookup (names : list string) (month : Z) (value : string)
  : option (Z * string) :=
  match names with
  | [] => None
  | name :: names' =>
      match hasName name value with
      | Some rest => Some (month, rest)
      | None => lookup names' (month + 1) value
      end
  end.

Definition isLeap (year : Z) : bool :=
  (year mod 4 =? 0) && (negb (year mod 100 =? 0) || (year mod 400 =? 0)).

Definition daysIn (month year : Z) : Z :=
  if month =? 2 then (if isLeap year then 29 else 28)
  else if (month =? 4) || (month =? 6) || (month =? 9) || (month =? 11) then 30
  else 31.

(** Days from 1970-01-01 to the given day of the proleptic Gregorian
    calendar; a day beyond the end of its month counts on into the next. *)
Definition daysFromCivil (year month day : Z) : Z :=
  let y := if month <=? 2 then year - 1 else year in
  let era := y / 400 in
  let yoe := y - era * 400 in
  let mp := if 2 <? month then month - 3 else month + 9 in
  let doy := (153 * mp + 2) / 5 + day - 1 in
  let doe := yoe * 365 + yoe / 4 - yoe / 100 + doy in
  era * 146097 + doe - 719468.

Definition civilFromDays (days : Z) : Z * Z * Z :=
  let z := days + 719468 in
  let era := z / 146097 in
  let doe := z - era * 146097 in
  let yoe := (doe - doe / 1460 + doe / 36524 - doe / 146096) / 365 in
  let doy := doe - (365 * yoe + yoe / 4 - yoe / 100) in
  let mp := (5 * doy + 2) / 153 in
  let day := doy - (153 * mp + 2) / 5 + 1 in
  let month := if mp <? 10 then mp + 3 else mp - 9 in
  let year := yoe + era * 400 + (if month <=? 2 then 1 else 0) in
  (year, month, day).

Definition nsPerDay : Z := 86400 * 1000000000.

Definition parseDate (value : string) : option Z :=
  '(day, value) ← getnum2 value;
  value ← dash value;
  '(month, value) ← lookup shortMonthNames 1 value;
  value ← dash value;
  '(year, value) ← getyear value;
  match value with
  | EmptyString =>
      if (1 <=? day) && (day <=? daysIn month year)
      then Some (daysFromCivil year month day * nsPerDay)
      else None
  | String _ _ => None
  end.

Definition Parse (layout value : string) : result Z :=
  match parseDate value with
  | Some t => Ok t
  | None => Err (ExternalError "parsing time")
  end.

Definition AddDate (t years months days : Z) : Z :=
  let '(year, month, day) := civilFromDays (t / nsPerDay) in
  let m := month - 1 + months in
  let year := year + years + m / 12 in
  let month := m mod 12 + 1 in
  daysFromCivil year month (day + days) * nsPerDay + t mod nsPerDay.

(** Midnight UTC of a day. *)
Definition date (year month day : Z) : Z := daysFromCivil year month day * nsPerDay.
End GoTime.

(** ** Concrete inputs on which the model is run *)

Module Demo.
(** A record as [getRestaurants] and a later detail fetch leave it. *)
Definition mk (name community address : string)
    (insps : list inspection) (ll : latLong) : restaurant :=
  {| ID := name; Name := name; FacilityType := "Restaurant";
     Community := community; SiteAddress := address;
     PhoneNumber := ""; MoreDetailsURL := String.append "https://inspections.vcha.ca/" name;
     OutstandingNonCriticalInfractions := 0;
     OutstandingCriticalInfractions := 0;
     Inspections := insps;
     LatLong := ll;
     InfractionsPastYear := 0;
     InfractionsTotal := 0 |}.

Definition insp (date : string) (critical noncritical : Z) : inspection :=
  {| Date := date; Number := "1"; Reason := "Routine";
     NonCritical := noncritical; Critical := critical |}.

(** A geocoding service that is down, and one that places every address
    on the campus. *)
Definition serviceDown (calls : list string) (address : string)
  : result (float * float) := Err (ExternalError "geocoder: no answer").

Definition campus : latLong := {| Lat := 49.25%float; Long := (-123.25)%float |}.

Definition serviceCampus (calls : list string) (address : string)
  : result (float * float) := Ok (49.25%float, (-123.25)%float).

Definition mall : string :=
  String.append "6138 Student Union Blvd" (String GoStrings.newline "Vancouver").

(** A web server that answers no request. *)
Definition serverDown (addr : string) : result document :=
  Err (ExternalError "get: connection refused").

Definition atoi0 (s : string) : Z := 0%Z.

(** Noon UTC of 15 June 2021. *)
Definition noon : Z := (GoTime.date 2021 6 15 + 12 * 3600 * 1000000000)%Z.

(** A restaurant with one inspection in the year before [noon] and one
    before that year; one whose inspection has a date in another layout;
    one with a negative count; one whose counts add up to more than an
    [int] holds. *)
Definition goodA : restaurant :=
  mk "A" vancouverWestside mall
    [insp "01-Mar-2021" 1 0; insp "10-Jan-2019" 0 2] campus.

Definition badB : restaurant :=
  mk "B" vancouverWestside mall [insp "2021-03-01" 1 0] campus.

Definition negative : restaurant :=
  mk "N" vancouverWestside mall [insp "10-Jan-2019" (-1) 0] campus.

Definition huge : restaurant :=
  mk "H" vancouverWestside mall
    [insp "01-Mar-2021" GoInt.max_int 0; insp "10-Jan-2019" 1 0] campus.

(** Thirty-three records without inspections, all to be fetched, and the
    state of [fetchDetails] on them once each of the sixteen workers has
    taken one record, failed on it and returned, and the producer has
    filled the channel again. *)
Definition unfetched : restaurant :=
  mk "U" vancouverWestside mall [] campus.

Definition unfetched33 : list restaurant := replicate 33 unfetched.

Definition blockedChan : list nat := Eval vm_compute in seq 16 16.
Definition blockedPool : list worker := Eval vm_compute in replicate workers Exited.
Definition blockedSent : list nat := Eval vm_compute in seq 0 32.
Definition blockedFetched : list nat := Eval vm_compute in seq 0 16.

Definition blockedState : sched :=
  Sched unfetched33 32 blockedChan blockedPool Sending blockedSent blockedFetched.
End Demo.

(** ** The statistics, as the specification words them *)

(** The infractions one inspection counts. *)
Definition infractions (i : inspection) : Z := (Critical i + NonCritical i)%Z.

(** The sum of the infractions of a sequence of inspections, as a
    mathematical integer. *)
Definition sumAll (insps : list inspection) : Z :=
  foldr (fun i acc => (infractions i + acc)%Z) 0%Z insps.

(** An inspection whose date parses to an instant strictly after
    [yearAgo]. *)
Definition inPastYear (time_Parse : string -> string -> result Z)
    (yearAgo : Z) (i : inspection) : bool :=
  match time_Parse dateLayout (Date i) with
  | Ok t => time_After t yearAgo
  | Err _ => false
  end.

Definition sumPastYear (time_Parse : string -> string -> result Z)
    (yearAgo : Z) (insps : list inspection) : Z :=
  sumAll (List.filter (inPastYear time_Parse yearAgo) insps).

(** The date of an inspection is in the layout; all the dates of a
    restaurant are. *)
Definition dateParses (time_Parse : string -> string -> result Z)
    (i : inspection) : Prop :=
  exists t, time_Parse dateLayout (Date i) = Ok t.

Definition datesParse (time_Parse : string -> string -> result Z)
    (r : restaurant) : Prop :=
  Forall (dateParses time_Parse) (Inspections r).

(** The counts of every inspection of a restaurant are not negative. *)
Definition countsNonNegative (r : restaurant) : Prop :=
  Forall (fun i => (0 <= Critical i)%Z /\ (0 <= NonCritical i)%Z) (Inspections r).

(** ** Notions the statements and the invariants use *)

Local Open Scope nat_scope.

(** A record west of the border: its longitude is strictly less than
    [borderLng]. *)
Definition westOfBorder (r : restaurant) : Prop :=
  PrimFloat.ltb (Long (LatLong r)) borderLng = true.

Global Instance westOfBorder_dec r : Decision (westOfBorder r).
Proof. unfold westOfBorder. apply _. Defined.

(** The addresses a pass over [rs] may look up. *)
Definition westsideAddress (rs : list restaurant) (a : string) : Prop :=
  ∃ r, r ∈ rs ∧ Community r = vancouverWestside ∧ a = normalize (SiteAddress r).

Global Instance worker_eq_dec : EqDecision worker.
Proof. solve_decision. Defined.

(** What holds of every state of an execution of [fetchDetails(rs)]. *)
Record sched_inv (refetch : bool) (rs : list restaurant) (s : sched) : Prop := {
  inv_length : length (store s) = length rs;
  inv_ahead : ∀ i, next s ≤ i → store s !! i = rs !! i;
  inv_sent : sent s = scheduled refetch rs (next s);
  inv_next : next s ≤ length rs;
  inv_chan : ∀ i, i ∈ chan s → i ∈ sent s;
  inv_pool : ∀ k i, pool s !! k = Some (Fetching i) → i ∈ sent s;
  inv_fetched : ∀ i, i ∈ fetched s → i ∈ sent s;
  inv_done : prod s ≠ Sending → next s = length rs;
  inv_store : fetched s = [] → store s = rs
}.

(** The workers that are not waiting at their [range]. *)
Definition busy (pl : list worker) : nat :=
  length (filter (fun w => w ≠ Receiving) pl).

(** What holds of every state when no request is answered and every record
    is to be fetched: the producer is in its loop, and each record it has
    sent is in the channel or was taken by a worker that no longer
    receives. *)
Record blocked_inv (rs : list restaurant) (s : sched) : Prop := {
  binv_prod : prod s = Sending;
  binv_store : store s = rs;
  binv_pool : length (pool s) = workers;
  binv_next : next s = length (chan s) + busy (pool s);
  binv_chan : length (chan s) ≤ workers
}.

(** The record a worker holds, and the records the workers hold. *)
Definition held (w : worker) : list nat :=
  match w with
  | Fetching i => [i]
  | _ => []
  end.

Definition holding (pl : list worker) : list nat := pl ≫= held.

(** The records in the channel, in the hands of a worker or fetched are
    pairwise distinct, and the producer has passed them. *)
Record once_inv (s : sched) : Prop := {
  once_nodup : NoDup (chan s ++ holding (pool s) ++ fetched s);
  once_below : Forall (fun i => i < next s) (chan s ++ holding (pool s) ++ fetched s)
}.

(** ** Notions the further properties use *)

(** The address with every line break replaced by a comma and a space. *)
Fixpoint replaceNewlines (s : string) : string :=
  match s with
  | EmptyString => EmptyString
  | String c s' =>
      if Ascii.eqb c GoStrings.newline
      then String "," (String " " (replaceNewlines s'))
      else String c (replaceNewlines s')
  end.

Fixpoint hasNewline (s : string) : bool :=
  match s with
  | EmptyString => false
  | String c s' => Ascii.eqb c GoStrings.newline || hasNewline s'
  end.

(** What a pass without error has done to a record. *)
Definition geocoded (cache : gmap string latLong) (r r' : restaurant) : Prop :=
  if String.eqb (Community r) vancouverWestside
  then SiteAddress r ≠ ""
       ∧ ∃ ll, cache !! normalize (SiteAddress r) = Some ll ∧ r' = set_LatLong ll r
  else r' = r.

Definition nonCriticalLabel : string := "Outstanding Non-Critical Infractions".
Definition criticalLabel : string := "Outstanding Critical Infractions".

(** The field of the last row of a page that carries the label. *)
Fixpoint lastLabelled (label : string) (rows : list (string * string))
  : option string :=
  match rows with
  | [] => None
  | (l, field) :: rest =>
      match lastLabelled label rest with
      | Some later => Some later
      | None => if String.eqb l label then Some field else None
      end
  end.

(** The workers that have not exited. *)
Definition active (pl : list worker) : nat :=
  length (filter (fun w => w ≠ Exited) pl).

(** What the producer still has to do besides its loop: close, return. *)
Definition rank (pd : producer) : nat :=
  match pd with
  | Sending => 2
  | Waiting => 1
  | Returned => 0
  end.

(** A bound on the steps an execution can still take from a state. *)
Definition measure (s : sched) : nat :=
  3 * (length (store s) - next s) + 2 * length (chan s)
  + length (holding (pool s)) + rank (prod s) + active (pool s).

(** What holds of every state of an execution of [fetchDetails(rs)], on
    top of [sched_inv] and [once_inv]: every record sent is in the channel,
    in the hands of a worker or fetched; a record is as it was unless it was
    fetched, and then it is what [fetchDetail] made of it; the pool keeps
    its size and the channel its capacity; after the return every worker has
    exited. *)
Record flow_inv (get : string → result document) (Atoi : string → Z)
    (rs : list restaurant) (s : sched) : Prop := {
  flow_sent : sent s ≡ₚ chan s ++ holding (pool s) ++ fetched s;
  flow_store : ∀ i r0, rs !! i = Some r0 →
    store s !! i
    = Some (if decide (i ∈ fetched s) then (fetchDetail get Atoi r0).1 else r0);
  flow_pool : length (pool s) = workers;
  flow_chan : length (chan s) ≤ workers;
  flow_returned : prod s = Returned → Forall (fun w => w = Exited) (pool s)
}.


(** The state in which the producer waits for room in a channel no worker
    will ever empty. *)
Definition blocked (refetch : bool) (s : sched) : Prop :=
  prod s = Sending
  ∧ Forall (fun w => w = Exited) (pool s)
  ∧ length (chan s) = workers
  ∧ ∃ r, store s !! next s = Some r ∧ eligible refetch r = true.

(** ** Report *)

(** What [fmt] writes for [%d]: the decimal digits, after a minus sign for
    a negative integer. *)
Definition fmt_d (z : Z) : string := pretty z.

(** The strings [printRestaurants] writes to the standard output, one for
    each call of [fmt.Println] or [fmt.Printf], in order. *)
Definition reportHeader : list string :=
  [String.append
     "|Name|Infractions (Past Year)|Infractions (Total)|Outstanding Critical Infractions|Outstanding Non-CriticalInfractions||"
     (String GoStrings.newline "");
   String.append "|---|---|---|---|---|---|" (String GoStrings.newline "")].

Definition reportRow (r : restaurant) : string :=
  String.concat ""
    ["|"; Name r;
     "|"; fmt_d (InfractionsPastYear r);
     "|"; fmt_d (InfractionsTotal r);
     "|"; fmt_d (OutstandingCriticalInfractions r);
     "|"; fmt_d (OutstandingNonCriticalInfractions r);
     "|[Details]("; MoreDetailsURL r; ")|"; String GoStrings.newline ""].

(** [printRestaurants(rs)] *)
Definition printRestaurants (rs : list restaurant) : list string :=
  fold_left
    (fun out r =>
       if Nat.eqb (length (Inspections r)) 0 then out else out ++ [reportRow r])
    rs reportHeader.

(** ** Listing *)

Definition restaurantsURL : string :=
  "https://inspections.vcha.ca/FoodPremises/Table?SortMode=FacilityName&page=1&PageSize=100000".

(** [path.Base] *)
Module GoPath.
Definition slash : ascii := "/"%char.

(** The path without its trailing slashes. *)
Fixpoint stripSlashes (path : string) : string :=
  match path with
  | EmptyString => EmptyString
  | String c rest =>
      match stripSlashes rest with
      | EmptyString => if Ascii.eqb c slash then EmptyString else String c EmptyString
      | String c' rest' => String c (String c' rest')
      end
  end.

Fixpoint hasSlash (path : string) : bool :=
  match path with
  | EmptyString => false
  | String c rest => Ascii.eqb c slash || hasSlash rest
  end.

(** What follows the last slash of the path; the path when it has none. *)
Fixpoint lastElement (path : string) : string :=
  match path with
  | EmptyString => EmptyString
  | String c rest =>
      if hasSlash rest then lastElement rest
      else if Ascii.eqb c slash then rest
      else String c rest
  end.

Definition Base (path : string) : string :=
  match path with
  | EmptyString => "."
  | String _ _ =>
      match lastElement (stripSlashes path) with
      | EmptyString => "/"
      | String c rest => String c rest
      end
  end.
End GoPath.

(** What [getRestaurants] reads off a row [tr.hovereffect] of the listing:
    the trimmed texts of five cells and the trimmed [onclick] attribute,
    empty when the row has none. *)
Record listingRow : Type := {
  facilityName : string;
  facilityType : string;
  community : string;
  siteAddress : string;
  phoneNumber : string;
  onclick : string
}.

(** How a call ends that may index a slice out of its range. *)
Inductive ending (A : Type) : Type :=
| Returns (a : A)
| Panics.
Arguments Returns {A} a.
Arguments Panics {A}.

Section Listing.
(** [get(restaurantsURL)] and the rows of the document it returns. *)
Variable getListing : result (list listingRow).
(** [resolveURL(base, rel)] *)
Variable resolveURL : string -> string -> result string.

Definition quote : ascii := "'"%char.

(** The body of the function passed to [Each], for one row: the record
    appended, unless [strings.Split(onClick, "'")[1]] is out of range. *)
Definition listingRecord (row : listingRow) : option restaurant :=
  match GoStrings.Split (onclick row) quote !! 1 with
  | None => None
  | Some url =>
      Some {| ID := GoPath.Base url;
              Name := facilityName row;
              FacilityType := facilityType row;
              Community := community row;
              SiteAddress := siteAddress row;
              PhoneNumber := phoneNumber row;
              MoreDetailsURL :=
                match resolveURL restaurantsURL url with
                | Ok u => u
                | Err _ => ""
                end;
              OutstandingNonCriticalInfractions := 0;
              OutstandingCriticalInfractions := 0;
              Inspections := [];
              LatLong := zeroLatLong;
              InfractionsPastYear := 0;
              InfractionsTotal := 0 |}
  end.

(** The loop of [Each] over the rows. *)
Fixpoint listingRecords (rows : list listingRow) : option (list restaurant) :=
  match rows with
  | [] => Some []
  | row :: rest =>
      match listingRecord row with
      | None => None
      | Some r =>
          match listingRecords rest with
          | None => None
          | Some rs => Some (r :: rs)
          end
      end
  end.

(** [getRestaurants()] *)
Definition getRestaurants : ending (result (list restaurant)) :=
  match getListing with
  | Err e => Returns (Err e)
  | Ok rows =>
      match listingRecords rows with
      | None => Panics
      | Some rs => Returns (Ok rs)
      end
  end.
End Listing.

(** ** The cache when it may be nil

    The decoder leaves [db.GeocodeCache] nil when the store file holds
    [null] for it. A nil map is read like the empty map; an assignment to
    an entry of a nil map panics. *)
Inductive cacheMap : Type :=
| NilMap
| MadeMap (m : gmap string latLong).

Definition entries (c : cacheMap) : gmap string latLong :=
  match c with
  | NilMap => ∅
  | MadeMap m => m
  end.

Section GeocodingNil.
Variable Geocode : list string -> string -> result (float * float).

(** [(db *db) geocode(address)] on a store whose cache may be nil. *)
Definition db_geocode (address : string)
    (cache : cacheMap) (calls : list string)
  : ending (result latLong * cacheMap * list string) :=
  if Nat.eqb (String.length address) 0 then Returns (Err AddressEmpty, cache, calls)
  else
    let address := normalize address in
    match entries cache !! address with
    | Some cached => Returns (Ok cached, cache, calls)
    | None =>
        match Geocode calls address with
        | Err e => Returns (Err e, cache, calls ++ [address])
        | Ok (lat, lng) =>
            let cached := {| Lat := lat; Long := lng |} in
            match cache with
            | NilMap => Panics
            | MadeMap m =>
                Returns (Ok cached, MadeMap (<[address := cached]> m),
                         calls ++ [address])
            end
        end
    end.
End GeocodingNil.

(** A string with a single quote in it. *)
Fixpoint hasQuote (s : string) : bool :=
  match s with
  | EmptyString => false
  | String c rest => Ascii.eqb c quote || hasQuote rest
  end.

(** What the listing makes of a row. *)
Definition listed (resolveURL : string -> string -> result string)
    (row : listingRow) (r : restaurant) : Prop :=
  listingRecord resolveURL row = Some r
  ∧ Name r = facilityName row
  ∧ Community r = community row
  ∧ SiteAddress r = siteAddress row
  ∧ ID r ≠ ""
  ∧ Inspections r = []
  ∧ LatLong r = zeroLatLong.

(** ** The pipeline: [generateRestaurantsList]

    [ubc], the slice [getUBCRestaurants] returns, shares its records with
    [db.Restaurants]: it is the list of the positions in [db.Restaurants]
    of the records selected. What [fetchDetails(ubc)] writes through these
    pointers is written at these positions, and [ubc] read later holds the
    records then at these positions. *)

Definition westb (r : restaurant) : bool :=
  PrimFloat.ltb (Long (LatLong r)) borderLng.

(** The positions of the records [getUBCRestaurants] selects, counted from
    [n] for the first record of [rs]. *)
Fixpoint pointersFrom (n : nat) (rs : list restaurant) : list nat :=
  match rs with
  | [] => []
  | r :: rest =>
      if westb r then n :: pointersFrom (S n) rest else pointersFrom (S n) rest
  end.

Definition ubcPointers (rs : list restaurant) : list nat := pointersFrom 0 rs.

(** The records at the positions [ps]. *)
Definition deref (rs : list restaurant) (ps : list nat) : list restaurant :=
  omap (fun i => rs !! i) ps.

(** The records [rs] once the records [us] are written at the positions
    [ps]. *)
Fixpoint assign (ps : list nat) (us : list restaurant) (rs : list restaurant)
  : list restaurant :=
  match ps, us with
  | i :: ps', u :: us' => assign ps' us' (<[i := u]> rs)
  | _, _ => rs
  end.

(** How [os.OpenFile(dbFile, os.O_RDONLY, 0755)] ends. *)
Inductive opening : Type :=
| NotExist
| OpenFails (e : error)
| Opens (content : string).

(** How a run of [generateRestaurantsList] ends: it returns, or it
    panics. *)
Inductive finish : Type :=
| Finished (err : option error)
| Crashed.

(** What a run has done when it ends: the store the deferred function
    called [save] on, if it was called; what it wrote to the standard
    output; the requests it sent to the geocoding service; the detail
    pages it asked for. *)
Record outcome : Type := Outcome {
  finished : finish;
  saved : option db;
  printed : list string;
  requests : list string;
  pages : list string
}.

(** What [sort.Slice] with the order of [generateRestaurantsList] leaves:
    no record is followed by one with fewer infractions in the past
    year. *)
Definition sortedByPastYear (rs : list restaurant) : Prop :=
  StronglySorted (fun a b => (InfractionsPastYear a <= InfractionsPastYear b)%Z) rs.

Section Pipeline.
Variable openRead : opening.
(** [json.NewDecoder(f).Decode(db)]: the store as the decoder leaves it,
    and its error. *)
Variable Decode : string -> db -> db * option error.
Variable getListing : result (list listingRow).
Variable resolveURL : string -> string -> result string.
Variable Geocode : list string -> string -> result (float * float).
Variable get : string -> result document.
Variable Atoi : string -> Z.
Variable refetch : bool.
Variable time_Parse : string -> string -> result Z.
Variable time_AddDate : Z -> Z -> Z -> Z -> Z.
Variable now : Z.

(** [(db *db) load()] *)
Definition load (d : db) : db * option error :=
  match openRead with
  | NotExist => (d, None)
  | OpenFails e => (d, Some e)
  | Opens content => Decode content d
  end.

(** The listing refresh of [generateRestaurantsList]. *)
Definition refresh (d : db) : ending (result db) :=
  if Nat.eqb (length (Restaurants d)) 0 || refetch then
    match getRestaurants getListing resolveURL with
    | Panics => Panics
    | Returns (Err e) => Returns (Err e)
    | Returns (Ok rs) =>
        Returns (Ok {| Restaurants := rs; GeocodeCache := GeocodeCache d |})
    end
  else Returns (Ok d).

(** The detail pages asked for, given the positions in [ubc] that
    [fetchDetail] was called on. *)
Definition pagesOf (ubc : list restaurant) (fetched : list nat) : list string :=
  omap (fun i => MoreDetailsURL <$> ubc !! i) fetched.

(** The runs of [generateRestaurantsList] that end. The deferred function
    runs, and calls [save], whenever [load] has returned without error,
    also when the function panics. *)
Inductive generateRestaurantsList : outcome -> Prop :=
| run_load_error d e :
    load makeDB = (d, Some e) ->
    generateRestaurantsList (Outcome (Finished (Some e)) None [] [] [])
| run_listing_error d0 e :
    load makeDB = (d0, None) ->
    refresh d0 = Returns (Err e) ->
    generateRestaurantsList (Outcome (Finished (Some e)) (Some d0) [] [] [])
| run_listing_panic d0 :
    load makeDB = (d0, None) ->
    refresh d0 = Panics ->
    generateRestaurantsList (Outcome Crashed (Some d0) [] [] [])
| run_geocode_error d0 d1 d2 calls e :
    load makeDB = (d0, None) ->
    refresh d0 = Returns (Ok d1) ->
    geocodeRestaurants Geocode d1 [] = (d2, calls, Some e) ->
    generateRestaurantsList (Outcome (Finished (Some e)) (Some d2) [] calls [])
| run_stats_error d0 d1 d2 calls s rs e :
    load makeDB = (d0, None) ->
    refresh d0 = Returns (Ok d1) ->
    geocodeRestaurants Geocode d1 [] = (d2, calls, None) ->
    reachable get Atoi refetch (getUBCRestaurants d2) s ->
    prod s = Returned ->
    computeInfractionsPastYear time_Parse time_AddDate now
      (assign (ubcPointers (Restaurants d2)) (store s) (Restaurants d2))
    = (rs, Some e) ->
    generateRestaurantsList
      (Outcome (Finished (Some e))
         (Some {| Restaurants := rs; GeocodeCache := GeocodeCache d2 |})
         [] calls (pagesOf (getUBCRestaurants d2) (fetched s)))
| run_reports d0 d1 d2 calls s rs sorted :
    load makeDB = (d0, None) ->
    refresh d0 = Returns (Ok d1) ->
    geocodeRestaurants Geocode d1 [] = (d2, calls, None) ->
    reachable get Atoi refetch (getUBCRestaurants d2) s ->
    prod s = Returned ->
    computeInfractionsPastYear time_Parse time_AddDate now
      (assign (ubcPointers (Restaurants d2)) (store s) (Restaurants d2))
    = (rs, None) ->
    sorted ≡ₚ deref rs (ubcPointers (Restaurants d2)) ->
    sortedByPastYear sorted ->
    generateRestaurantsList
      (Outcome (Finished None)
         (Some {| Restaurants := rs; GeocodeCache := GeocodeCache d2 |})
         (printRestaurants sorted) calls
         (pagesOf (getUBCRestaurants d2) (fetched s))).

End Pipeline.

(** What [fetchDetails(ubc)] may have made of a record of
    [db.Restaurants]. *)
Definition written (get : string → result document) (Atoi : string → Z)
    (r r' : restaurant) : Prop :=
  r' = r ∨ (westOfBorder r ∧ r' = (fetchDetail get Atoi r).1).

(** What the run has made of it once the statistics are computed. *)
Definition processed (get : string → result document) (Atoi : string → Z)
    (r r' : restaurant) : Prop :=
  ∃ r3, written get Atoi r r3
        ∧ r' = set_stats (InfractionsPastYear r') (InfractionsTotal r') r3.

(** ** A run of the whole pipeline *)

Module DemoRun.
(** [strconv.Atoi] on the decimal digits of a count; 0 otherwise. *)
Fixpoint digitsValue (s : string) (acc : Z) : option Z :=
  match s with
  | EmptyString => Some acc
  | String c rest =>
      if GoTime.isDigit c then digitsValue rest (acc * 10 + GoTime.digit c)%Z
      else None
  end.

Definition atoi (s : string) : Z :=
  match s with
  | EmptyString => 0%Z
  | String _ _ => default 0%Z (digitsValue s 0)
  end.

(** A listing of two restaurants, one on the campus and one downtown. *)
Definition rows : list listingRow :=
  [{| facilityName := "A"; facilityType := "Restaurant";
      community := vancouverWestside; siteAddress := Demo.mall;
      phoneNumber := "604";
      onclick := "location.href='/FoodPremises/Details/A'" |};
   {| facilityName := "D"; facilityType := "Restaurant";
      community := "Vancouver - Downtown"; siteAddress := "800 Robson St";
      phoneNumber := "604";
      onclick := "location.href='/FoodPremises/Details/D'" |}].

Definition resolve (base rel : string) : result string :=
  Ok (String.append "https://inspections.vcha.ca" rel).

(** A web server that answers every request with a page of one inspection
    and one outstanding critical infraction. *)
Definition page : document :=
  {| summaryRows := [("Outstanding Critical Infractions", "1")];
     inspectionRows :=
       [{| inspectionDate := "01-Mar-2021"; inspectionNumber := "7";
           inspectionType := "Routine"; criticalInfractionsCount := "1";
           nonCriticalInfractionsCount := "2" |}] |}.

Definition serverUp (addr : string) : result document := Ok page.

Definition decode (content : string) (d : db) : db * option error := (d, None).

(** The store after the listing, after the geocoding pass, the scheduler
    when it has returned, the records after the statistics, and what the
    run has done in the end. *)
Definition listedRecords : list restaurant :=
  Eval vm_compute in default [] (listingRecords resolve rows).

Definition d1 : db := {| Restaurants := listedRecords; GeocodeCache := ∅ |}.

Definition d2 : db := (geocodeRestaurants Demo.serviceCampus d1 []).1.1.

Definition calls : list string :=
  Eval vm_compute in (geocodeRestaurants Demo.serviceCampus d1 []).1.2.

Definition ubc : list restaurant := Eval vm_compute in getUBCRestaurants d2.

Definition fetchedRecords : list restaurant :=
  Eval vm_compute in map (fun r => (fetchDetail serverUp atoi r).1) ubc.

Definition returned : sched :=
  Sched fetchedRecords 1 [] Demo.blockedPool Returned [0] [0].

Definition records : list restaurant :=
  (computeInfractionsPastYear GoTime.Parse GoTime.AddDate Demo.noon
     (assign (ubcPointers (Restaurants d2)) (store returned) (Restaurants d2))).1.

Definition sorted : list restaurant :=
  Eval vm_compute in deref records (ubcPointers (Restaurants d2)).

Definition done : outcome :=
  Outcome (Finished None)
    (Some {| Restaurants := records; GeocodeCache := GeocodeCache d2 |})
    (printRestaurants sorted) calls
    (pagesOf (getUBCRestaurants d2) (fetched returned)).
End DemoRun.

(** * Properties *)

(** ** Geographic filter *)

Lemma getUBC_loop (l acc : list restaurant) :
  fold_left
    (fun rs r => if PrimFloat.ltb (Long (LatLong r)) borderLng then rs ++ [r] else rs)
    l acc
  = acc ++ filter westOfBorder l.
Proof.
  revert acc. induction l as [|r l IH]; intros acc; simpl.
  - by rewrite filter_nil, app_nil_r.
  - rewrite IH, filter_cons.
    destruct (decide (westOfBorder r)) as [W|W]; unfold westOfBorder in W.
    + rewrite W. by rewrite <- app_assoc.
    + by apply not_true_is_false in W; rewrite W.
Qed.

Lemma getUBCRestaurants_eq_filter (d : db) :
  getUBCRestaurants d = filter westOfBorder (Restaurants d).
Proof. unfold getUBCRestaurants. by rewrite getUBC_loop. Qed.

(** C2. [getUBCRestaurants] is the order-preserving filter of the
    restaurants whose longitude is strictly less than [borderLng]: it
    returns exactly the records of [db.Restaurants] that are west of the
    border, each as often as it occurs there, and the result is a sublist
    of [db.Restaurants] (same relative order). *)
Theorem getUBCRestaurants_filter (d : db) :
  getUBCRestaurants d = filter westOfBorder (Restaurants d)
  ∧ (∀ r, r ∈ getUBCRestaurants d ↔
          r ∈ Restaurants d ∧ PrimFloat.ltb (Long (LatLong r)) borderLng = true)
  ∧ getUBCRestaurants d `sublist_of` Restaurants d.
Proof.
  rewrite getUBCRestaurants_eq_filter. split; [done|]. split.
  - intros r. rewrite list_elem_of_filter. unfold westOfBorder. tauto.
  - apply sublist_filter.
Qed.

(** ** Geocode cache *)

Lemma geocode_empty Geocode cache calls :
  geocode Geocode "" cache calls = (Err AddressEmpty, cache, calls).
Proof. reflexivity. Qed.

Lemma length_zero_empty (s : string) : String.length s = 0 → s = "".
Proof. by destruct s. Qed.

(** C6, as stated, fails on the empty address: with a cache that holds the
    key [""] (the normalized form of [""]), [geocode("")] returns the error
    "address empty" and not the stored coordinate. *)
Lemma geocode_cached_empty_address :
  normalize "" = ""
  ∧ ({[ "" := Demo.campus ]} : gmap string latLong) !! normalize "" = Some Demo.campus
  ∧ geocode Demo.serviceCampus "" {[ "" := Demo.campus ]} []
    = (Err AddressEmpty, {[ "" := Demo.campus ]}, []).
Proof. split; [reflexivity|]. split; [by vm_compute|reflexivity]. Qed.

(** C6, amended. For every non-empty address whose normalized form is a key
    of the cache, [geocode] returns the stored coordinate, sends no request
    to the geocoding service and leaves the cache as it is. *)
Theorem geocode_cache_hit
    (Geocode : list string → string → result (float * float))
    (address : string) (cache : gmap string latLong) (calls : list string)
    (cached : latLong) :
  address ≠ "" →
  cache !! normalize address = Some cached →
  geocode Geocode address cache calls = (Ok cached, cache, calls).
Proof.
  intros Hne Hhit. unfold geocode.
  destruct (Nat.eqb (String.length address) 0) eqn:E.
  - apply Nat.eqb_eq, length_zero_empty in E. done.
  - by rewrite Hhit.
Qed.

Lemma geocode_cache_hit_witness :
  geocode Demo.serviceDown Demo.mall
    {[ "6138 Student Union Blvd, Vancouver" := Demo.campus ]} []
  = (Ok Demo.campus, {[ "6138 Student Union Blvd, Vancouver" := Demo.campus ]}, []).
Proof.
  apply (geocode_cache_hit Demo.serviceDown Demo.mall
           {[ "6138 Student Union Blvd, Vancouver" := Demo.campus ]} [] Demo.campus).
  - discriminate.
  - by vm_compute.
Defined.

(** ** Geocoding pass *)

Section GeocodingPass.
Variable Geocode : list string → string → result (float * float).

(** A pass that came through a prefix without error goes on with the rest,
    from the cache and the log the prefix left. *)
Lemma geocodeLoop_app pre rest cache calls pre' cache1 calls1 :
  geocodeLoop Geocode pre cache calls = (pre', cache1, calls1, None) →
  geocodeLoop Geocode (pre ++ rest) cache calls
  = let '(rest', cache', calls', err) := geocodeLoop Geocode rest cache1 calls1 in
    (pre' ++ rest', cache', calls', err).
Proof.
  revert cache calls pre'.
  induction pre as [|r pre IH]; intros cache calls pre' H; simpl in *.
  - injection H as <- <- <-.
    by destruct (geocodeLoop Geocode rest cache calls) as [[[??]?]?].
  - destruct (negb (String.eqb (Community r) vancouverWestside)).
    + destruct (geocodeLoop Geocode pre cache calls) as [[[p c] k] e] eqn:E.
      injection H as <- <- <- ->.
      rewrite (IH _ _ _ E).
      by destruct (geocodeLoop Geocode rest c k) as [[[??]?]?].
    + destruct (geocode Geocode (SiteAddress r) cache calls) as [[[ll|e0] c0] k0];
        [|discriminate].
      destruct (geocodeLoop Geocode pre c0 k0) as [[[p c] k] e] eqn:E.
      injection H as <- <- <- ->.
      rewrite (IH _ _ _ E).
      by destruct (geocodeLoop Geocode rest c k) as [[[??]?]?].
Qed.

Lemma geocodeLoop_empty_address r post cache calls :
  Community r = vancouverWestside → SiteAddress r = "" →
  geocodeLoop Geocode (r :: post) cache calls
  = (r :: post, cache, calls, Some AddressEmpty).
Proof.
  intros HC HA. simpl. rewrite HC, String.eqb_refl, HA. reflexivity.
Qed.

(** The pass assigns to the records of Vancouver - Westside only. *)
Lemma geocodeLoop_frame rs cache calls i r :
  rs !! i = Some r → Community r ≠ vancouverWestside →
  (geocodeLoop Geocode rs cache calls).1.1.1 !! i = Some r.
Proof.
  revert cache calls i.
  induction rs as [|r0 rs IH]; intros cache calls i Hi HC; [done|].
  simpl.
  destruct (negb (String.eqb (Community r0) vancouverWestside)) eqn:W.
  - specialize (IH cache calls).
    destruct (geocodeLoop Geocode rs cache calls) as [[[p c] k] e].
    destruct i as [|i]; simpl in *; [done|]. by apply IH.
  - destruct (geocode Geocode (SiteAddress r0) cache calls) as [[[ll|e0] c0] k0].
    + specialize (IH c0 k0).
      destruct (geocodeLoop Geocode rs c0 k0) as [[[p c] k] e].
      destruct i as [|i]; simpl in *.
      * injection Hi as ->. apply negb_false_iff, String.eqb_eq in W. done.
      * by apply IH.
    + done.
Qed.

Lemma geocodeLoop_length rs cache calls :
  length (geocodeLoop Geocode rs cache calls).1.1.1 = length rs.
Proof.
  revert cache calls. induction rs as [|r0 rs IH]; intros cache calls; [done|].
  simpl. destruct (negb (String.eqb (Community r0) vancouverWestside)).
  - specialize (IH cache calls).
    destruct (geocodeLoop Geocode rs cache calls) as [[[p c] k] e].
    simpl in *. by rewrite IH.
  - destruct (geocode Geocode (SiteAddress r0) cache calls) as [[[ll|e0] c0] k0].
    + specialize (IH c0 k0).
      destruct (geocodeLoop Geocode rs c0 k0) as [[[p c] k] e].
      simpl in *. by rewrite IH.
    + done.
Qed.

Lemma geocodeRestaurants_Restaurants d calls :
  Restaurants (geocodeRestaurants Geocode d calls).1.1
  = (geocodeLoop Geocode (Restaurants d) (GeocodeCache d) calls).1.1.1.
Proof.
  unfold geocodeRestaurants.
  by destruct (geocodeLoop Geocode (Restaurants d) (GeocodeCache d) calls)
    as [[[??]?]?].
Qed.
End GeocodingPass.

Section GeocodingCalls.
Variable Geocode : list string → string → result (float * float).

(** A request goes to the service for the normalized address only. *)
Lemma geocode_calls address cache calls :
  (geocode Geocode address cache calls).2 = calls
  ∨ (geocode Geocode address cache calls).2 = calls ++ [normalize address].
Proof.
  unfold geocode. destruct (Nat.eqb (String.length address) 0); [by left|].
  destruct (cache !! normalize address); [by left|].
  destruct (Geocode calls (normalize address)) as [[lat lng]|e]; by right.
Qed.

Lemma geocodeLoop_calls rs cache calls :
  ∃ new,
    (geocodeLoop Geocode rs cache calls).1.2 = calls ++ new
    ∧ Forall (westsideAddress rs) new.
Proof.
  revert cache calls. induction rs as [|r0 rs IH]; intros cache calls.
  - exists []. by rewrite app_nil_r.
  - assert (Hmono : ∀ new, Forall (westsideAddress rs) new →
                           Forall (westsideAddress (r0 :: rs)) new).
    { intros new Hn. eapply Forall_impl; [exact Hn|].
      intros a (r & Hr & HC & ->). exists r. split; [by right|done]. }
    simpl. destruct (negb (String.eqb (Community r0) vancouverWestside)) eqn:W.
    + destruct (IH cache calls) as (new & Hnew & HF).
      destruct (geocodeLoop Geocode rs cache calls) as [[[p c] k] e].
      exists new. split; [done|by apply Hmono].
    + apply negb_false_iff, String.eqb_eq in W.
      pose proof (geocode_calls (SiteAddress r0) cache calls) as Hk.
      destruct (geocode Geocode (SiteAddress r0) cache calls) as [[[ll|e0] c0] k0];
        simpl in Hk.
      * destruct (IH c0 k0) as (new & Hnew & HF).
        destruct (geocodeLoop Geocode rs c0 k0) as [[[p c] k] e]. simpl in *.
        destruct Hk as [->| ->].
        -- exists new. split; [done|by apply Hmono].
        -- exists (normalize (SiteAddress r0) :: new).
           split; [by rewrite Hnew, <- app_assoc|].
           constructor; [|by apply Hmono]. exists r0. split; [by left|done].
      * destruct Hk as [->| ->].
        -- exists []. by rewrite app_nil_r.
        -- exists [normalize (SiteAddress r0)]. split; [done|].
           constructor; [|constructor]. exists r0. split; [by left|done].
Qed.

Lemma geocodeRestaurants_calls d calls :
  (geocodeRestaurants Geocode d calls).1.2
  = (geocodeLoop Geocode (Restaurants d) (GeocodeCache d) calls).1.2.
Proof.
  unfold geocodeRestaurants.
  by destruct (geocodeLoop Geocode (Restaurants d) (GeocodeCache d) calls)
    as [[[??]?]?].
Qed.
End GeocodingCalls.

Lemma zero_not_west (r : restaurant) :
  LatLong r = zeroLatLong → ¬ westOfBorder r.
Proof. unfold westOfBorder. intros ->. vm_compute. discriminate. Qed.

(** C8. [geocode] on the empty address returns the error "address empty",
    sends no request to the geocoding service and leaves the cache as it
    is. When the geocoding pass, having come through the records before it
    without error, reaches a Vancouver - Westside record whose address is
    empty, it returns that error at once: that record and the records after
    it are left as they were, and the cache and the request log are those
    the earlier records left. *)
Theorem geocode_empty_address_aborts
    (Geocode : list string → string → result (float * float)) :
  (∀ cache calls,
     geocode Geocode "" cache calls = (Err AddressEmpty, cache, calls))
  ∧ (∀ pre r post cache calls d1 calls1,
       geocodeRestaurants Geocode
         {| Restaurants := pre; GeocodeCache := cache |} calls
       = (d1, calls1, None) →
       Community r = vancouverWestside →
       SiteAddress r = "" →
       geocodeRestaurants Geocode
         {| Restaurants := pre ++ r :: post; GeocodeCache := cache |} calls
       = ({| Restaurants := Restaurants d1 ++ r :: post;
             GeocodeCache := GeocodeCache d1 |},
          calls1, Some AddressEmpty)).
Proof.
  split; [intros; apply geocode_empty|].
  intros pre r post cache calls d1 calls1 Hpre HC HA.
  unfold geocodeRestaurants in *. simpl in *.
  destruct (geocodeLoop Geocode pre cache calls) as [[[p c] k] e] eqn:E.
  injection Hpre as <- <- ->.
  rewrite (geocodeLoop_app _ _ _ _ _ _ _ _ E).
  by rewrite geocodeLoop_empty_address.
Qed.

Lemma geocode_empty_address_aborts_witness :
  geocodeRestaurants Demo.serviceCampus
    {| Restaurants :=
         [Demo.mk "A" vancouverWestside Demo.mall [] zeroLatLong]
         ++ Demo.mk "B" vancouverWestside "" [] zeroLatLong
         :: [Demo.mk "C" vancouverWestside Demo.mall [] zeroLatLong];
       GeocodeCache := ∅ |} []
  = ({| Restaurants :=
          [Demo.mk "A" vancouverWestside Demo.mall [] Demo.campus]
          ++ Demo.mk "B" vancouverWestside "" [] zeroLatLong
          :: [Demo.mk "C" vancouverWestside Demo.mall [] zeroLatLong];
        GeocodeCache := {[ "6138 Student Union Blvd, Vancouver" := Demo.campus ]} |},
     ["6138 Student Union Blvd, Vancouver"], Some AddressEmpty).
Proof.
  refine (proj2 (geocode_empty_address_aborts Demo.serviceCampus)
           [Demo.mk "A" vancouverWestside Demo.mall [] zeroLatLong]
           (Demo.mk "B" vancouverWestside "" [] zeroLatLong)
           [Demo.mk "C" vancouverWestside Demo.mall [] zeroLatLong]
           ∅ []
           {| Restaurants := [Demo.mk "A" vancouverWestside Demo.mall [] Demo.campus];
              GeocodeCache := {[ "6138 Student Union Blvd, Vancouver" := Demo.campus ]} |}
           ["6138 Student Union Blvd, Vancouver"] _ _ _).
  - by vm_compute.
  - reflexivity.
  - reflexivity.
Defined.

(** C10. The geocoding pass assigns a coordinate only to the records whose
    community is "Vancouver - Westside": whatever the pass returns, a record
    of another community is after the pass what it was before, at the same
    position, the pass neither adds nor removes records, and the requests
    it sends to the geocoding service are for addresses of Vancouver -
    Westside records. A record of another community whose coordinate is the
    zero coordinate is therefore not among the records [getUBCRestaurants]
    selects after the pass, zero not being less than [borderLng]. *)
Theorem geocodeRestaurants_only_westside
    (Geocode : list string → string → result (float * float))
    (d : db) (calls : list string) (i : nat) (r : restaurant) :
  Restaurants d !! i = Some r →
  Community r ≠ vancouverWestside →
  Restaurants (geocodeRestaurants Geocode d calls).1.1 !! i = Some r
  ∧ length (Restaurants (geocodeRestaurants Geocode d calls).1.1)
    = length (Restaurants d)
  ∧ (∃ new, (geocodeRestaurants Geocode d calls).1.2 = calls ++ new
            ∧ Forall (westsideAddress (Restaurants d)) new)
  ∧ (LatLong r = zeroLatLong →
     r ∉ getUBCRestaurants (geocodeRestaurants Geocode d calls).1.1).
Proof.
  intros Hi HC. rewrite geocodeRestaurants_Restaurants, geocodeRestaurants_calls.
  split; [by apply geocodeLoop_frame|].
  split; [apply geocodeLoop_length|].
  split; [apply geocodeLoop_calls|].
  intros Hz Hin. rewrite getUBCRestaurants_eq_filter in Hin.
  apply list_elem_of_filter in Hin as [W _].
  by apply (zero_not_west r).
Qed.

Lemma geocodeRestaurants_only_westside_witness :
  let d := {| Restaurants :=
                [Demo.mk "A" vancouverWestside Demo.mall [] zeroLatLong;
                 Demo.mk "D" "Vancouver - Downtown" "800 Robson St" [] zeroLatLong];
              GeocodeCache := ∅ |} in
  let r := Demo.mk "D" "Vancouver - Downtown" "800 Robson St" [] zeroLatLong in
  Restaurants (geocodeRestaurants Demo.serviceCampus d []).1.1 !! 1 = Some r
  ∧ length (Restaurants (geocodeRestaurants Demo.serviceCampus d []).1.1) = 2
  ∧ (∃ new, (geocodeRestaurants Demo.serviceCampus d []).1.2 = [] ++ new
            ∧ Forall (westsideAddress (Restaurants d)) new)
  ∧ (LatLong r = zeroLatLong →
     r ∉ getUBCRestaurants (geocodeRestaurants Demo.serviceCampus d []).1.1).
Proof.
  apply (geocodeRestaurants_only_westside Demo.serviceCampus
           {| Restaurants :=
                [Demo.mk "A" vancouverWestside Demo.mall [] zeroLatLong;
                 Demo.mk "D" "Vancouver - Downtown" "800 Robson St" [] zeroLatLong];
              GeocodeCache := ∅ |} [] 1
           (Demo.mk "D" "Vancouver - Downtown" "800 Robson St" [] zeroLatLong)).
  - reflexivity.
  - discriminate.
Defined.

(** ** Go's [int] arithmetic *)

Lemma wrap_in_range z : GoInt.in_range (GoInt.wrap z).
Proof.
  unfold GoInt.in_range, GoInt.wrap, GoInt.min_int, GoInt.max_int.
  pose proof (Z.mod_pos_bound (z + 2 ^ 63) (2 ^ 64)). lia.
Qed.

Lemma wrap_small z : GoInt.in_range z → GoInt.wrap z = z.
Proof.
  unfold GoInt.in_range, GoInt.wrap, GoInt.min_int, GoInt.max_int. intros H.
  rewrite Z.mod_small; lia.
Qed.

Lemma wrap_wrap z : GoInt.wrap (GoInt.wrap z) = GoInt.wrap z.
Proof. apply wrap_small, wrap_in_range. Qed.

Lemma wrap_add_l a b : GoInt.wrap (GoInt.wrap a + b) = GoInt.wrap (a + b).
Proof.
  unfold GoInt.wrap. f_equal.
  replace ((a + 2 ^ 63) mod 2 ^ 64 - 2 ^ 63 + b + 2 ^ 63)%Z
    with ((a + 2 ^ 63) mod 2 ^ 64 + b)%Z by lia.
  rewrite Zplus_mod_idemp_l. f_equal. lia.
Qed.

Lemma wrap_add_r a b : GoInt.wrap (a + GoInt.wrap b) = GoInt.wrap (a + b).
Proof. rewrite Z.add_comm, wrap_add_l. f_equal. lia. Qed.

Lemma wrap_step a x s :
  GoInt.wrap (GoInt.wrap (a + GoInt.wrap x) + s) = GoInt.wrap (a + (x + s)).
Proof.
  rewrite wrap_add_l.
  replace (a + GoInt.wrap x + s)%Z with ((a + s) + GoInt.wrap x)%Z by lia.
  rewrite wrap_add_r. f_equal. lia.
Qed.

(** ** Statistics aggregator *)

Section StatisticsFacts.
Variable time_Parse : string → string → result Z.
Variable time_AddDate : Z → Z → Z → Z → Z.


(** On dates that all parse the inner loop ends without error, with the two
    sums added, in [int] arithmetic, to what [count] and [total] were. *)
Lemma sumInspections_ok yearAgo insps count total :
  Forall (dateParses time_Parse) insps →
  ∃ c t,
    sumInspections time_Parse yearAgo insps count total = Ok (c, t)
    ∧ GoInt.wrap c = GoInt.wrap (count + sumPastYear time_Parse yearAgo insps)
    ∧ GoInt.wrap t = GoInt.wrap (total + sumAll insps)
    ∧ (GoInt.wrap count = count → GoInt.wrap c = c)
    ∧ (GoInt.wrap total = total → GoInt.wrap t = t).
Proof.
  intros H. revert count total.
  induction H as [|i insps [d Hd] _ IH]; intros count total; simpl.
  - exists count, total. unfold sumPastYear. simpl. rewrite !Z.add_0_r. done.
  - rewrite Hd.
    unfold sumPastYear. simpl. unfold inPastYear at 1. rewrite Hd.
    fold (sumPastYear time_Parse yearAgo insps).
    destruct (time_After d yearAgo).
    + destruct (IH (GoInt.add count (GoInt.add (Critical i) (NonCritical i)))
                   (GoInt.add total (GoInt.add (Critical i) (NonCritical i))))
        as (c & t & -> & Hc & Ht & Hci & Hti).
      exists c, t. split; [done|]. unfold GoInt.add in *.
      repeat split.
      * by rewrite Hc, wrap_step.
      * by rewrite Ht, wrap_step.
      * intros _. apply Hci, wrap_wrap.
      * intros _. apply Hti, wrap_wrap.
    + destruct (IH count
                   (GoInt.add total (GoInt.add (Critical i) (NonCritical i))))
        as (c & t & -> & Hc & Ht & Hci & Hti).
      exists c, t. split; [done|]. unfold GoInt.add in *.
      repeat split.
      * done.
      * by rewrite Ht, wrap_step.
      * done.
      * intros _. apply Hti, wrap_wrap.
Qed.

Lemma sumInspections_stats yearAgo insps :
  Forall (dateParses time_Parse) insps →
  sumInspections time_Parse yearAgo insps 0 0
  = Ok (GoInt.wrap (sumPastYear time_Parse yearAgo insps), GoInt.wrap (sumAll insps)).
Proof.
  intros H.
  destruct (sumInspections_ok yearAgo insps 0 0 H) as (c & t & -> & Hc & Ht & Hci & Hti).
  rewrite <- Hci, <- Hti by done. by rewrite Hc, Ht.
Qed.

(** The inner loop fails exactly on a date that does not parse, with the
    error [time.Parse] returned for the first such date. *)
Lemma sumInspections_err yearAgo insps count total e :
  sumInspections time_Parse yearAgo insps count total = Err e →
  ∃ i, i ∈ insps ∧ time_Parse dateLayout (Date i) = Err e.
Proof.
  revert count total. induction insps as [|i insps IH]; intros count total; simpl.
  - discriminate.
  - destruct (time_Parse dateLayout (Date i)) as [d|e'] eqn:Hd.
    + intros H. apply IH in H as (j & Hj & He). exists j. split; [by right|done].
    + intros [= ->]. exists i. split; [by left|done].
Qed.

Lemma sumInspections_parses yearAgo insps count total c t :
  sumInspections time_Parse yearAgo insps count total = Ok (c, t) →
  Forall (dateParses time_Parse) insps.
Proof.
  revert count total.
  induction insps as [|i insps IH]; intros count total E; [constructor|].
  simpl in E. destruct (time_Parse dateLayout (Date i)) as [d|e'] eqn:Hd; [|done].
  constructor; [by exists d|]. eapply IH, E.
Qed.

Lemma sumInspections_fails yearAgo insps count total e :
  sumInspections time_Parse yearAgo insps count total = Err e →
  ¬ Forall (dateParses time_Parse) insps.
Proof.
  intros E HF.
  destruct (sumInspections_ok yearAgo insps count total HF) as (c & t & H & _).
  congruence.
Qed.

(** The outer loop gives each record it gets to, the dates parsing so far,
    the two sums of its inspections. *)
Lemma statsLoop_lookup yearAgo rs i r :
  rs !! i = Some r →
  Forall (datesParse time_Parse) (take (S i) rs) →
  (statsLoop time_Parse yearAgo rs).1 !! i
  = Some (set_stats
            (GoInt.wrap (sumPastYear time_Parse yearAgo (Inspections r)))
            (GoInt.wrap (sumAll (Inspections r))) r).
Proof.
  revert i. induction rs as [|r0 rs IH]; intros i Hi HF; [done|].
  rewrite firstn_cons in HF. apply Forall_cons in HF as [H0 HF].
  simpl. rewrite (sumInspections_stats yearAgo _ H0).
  destruct (statsLoop time_Parse yearAgo rs) as [rest' err] eqn:E.
  destruct i as [|i]; simpl in *.
  - by injection Hi as ->.
  - by apply IH.
Qed.

Lemma statsLoop_ok yearAgo rs :
  (statsLoop time_Parse yearAgo rs).2 = None ↔ Forall (datesParse time_Parse) rs.
Proof.
  induction rs as [|r0 rs IH]; simpl; [done|].
  destruct (sumInspections time_Parse yearAgo (Inspections r0) 0 0)
    as [[c t]|e] eqn:E.
  - destruct (statsLoop time_Parse yearAgo rs) as [rest' err]. simpl in *.
    rewrite Forall_cons, <- IH. split; [|tauto].
    intros ->. split; [|done]. eapply sumInspections_parses, E.
  - simpl. split; [done|]. intros [H0 _]%Forall_cons.
    by eapply sumInspections_fails in E.
Qed.

(** When the outer loop returns an error it has updated the records before
    the first one with a date that does not parse, and no other. *)
Lemma statsLoop_abort yearAgo rs e :
  (statsLoop time_Parse yearAgo rs).2 = Some e →
  ∃ pre r post,
    rs = pre ++ r :: post
    ∧ Forall (datesParse time_Parse) pre
    ∧ sumInspections time_Parse yearAgo (Inspections r) 0 0 = Err e
    ∧ (statsLoop time_Parse yearAgo rs).1
      = (statsLoop time_Parse yearAgo pre).1 ++ r :: post.
Proof.
  induction rs as [|r0 rs IH]; simpl; [done|].
  destruct (sumInspections time_Parse yearAgo (Inspections r0) 0 0)
    as [[c t]|e0] eqn:E.
  - destruct (statsLoop time_Parse yearAgo rs) as [rest' err]. simpl in *.
    intros H. destruct (IH H) as (pre & r & post & -> & HF & Hr & Hres).
    exists (r0 :: pre), r, post. split; [done|].
    split; [constructor; [eapply sumInspections_parses, E|done]|].
    split; [done|]. simpl. rewrite E.
    destruct (statsLoop time_Parse yearAgo pre) as [pre' err']. simpl in *.
    by rewrite Hres.
  - simpl. intros [= ->]. exists [], r0, rs. by repeat split.
Qed.

Lemma sumAll_nonneg insps :
  Forall (fun i => (0 <= Critical i)%Z /\ (0 <= NonCritical i)%Z) insps →
  (0 <= sumAll insps)%Z.
Proof.
  induction 1 as [|i insps [??] _ IH]; simpl; [done|]. unfold infractions. lia.
Qed.

(** With counts that are not negative and a total that fits in an [int],
    no addition of the inner loop wraps around, and the count of the past
    year stays below the total. *)
Lemma sumInspections_le yearAgo insps count total c t :
  Forall (fun i => (0 <= Critical i)%Z /\ (0 <= NonCritical i)%Z) insps →
  (0 <= count <= total)%Z →
  (total + sumAll insps <= GoInt.max_int)%Z →
  sumInspections time_Parse yearAgo insps count total = Ok (c, t) →
  (0 <= c <= t)%Z.
Proof.
  intros HF. revert count total.
  induction HF as [|i insps [Hc Hn] HF IH]; intros count total Hct Hmax; simpl.
  - by intros [= <- <-].
  - destruct (time_Parse dateLayout (Date i)) as [d|e]; [|done].
    pose proof (sumAll_nonneg insps HF) as Hs.
    simpl in Hmax. unfold infractions in Hmax.
    assert (Hadd : ∀ a, (0 <= a <= total)%Z →
              GoInt.add a (GoInt.add (Critical i) (NonCritical i))
              = (a + (Critical i + NonCritical i))%Z).
    { intros a Ha. unfold GoInt.add.
      rewrite (wrap_small (Critical i + NonCritical i)),
        wrap_small; [done|..];
        unfold GoInt.in_range, GoInt.min_int, GoInt.max_int in *; lia. }
    rewrite (Hadd total) by lia.
    destruct (time_After d yearAgo).
    + rewrite (Hadd count) by lia. apply IH; lia.
    + apply IH; lia.
Qed.
(** C1, amended. For every restaurant such that the dates of its own
    inspections and of the inspections of the restaurants before it in the
    sequence all parse, [computeInfractionsPastYear] sets
    [InfractionsTotal] to the sum of [Critical + NonCritical] over all its
    inspections and [InfractionsPastYear] to the sum over the inspections
    whose date is strictly after [now.AddDate(-1, 0, 0)], both sums in
    Go's [int] arithmetic, and changes no other field; with no inspection
    both are 0. *)
Theorem computeInfractionsPastYear_sums now rs i r :
  rs !! i = Some r →
  Forall (datesParse time_Parse) (take (S i) rs) →
  (computeInfractionsPastYear time_Parse time_AddDate now rs).1 !! i
  = Some (set_stats
            (GoInt.wrap (sumPastYear time_Parse (time_AddDate now (-1) 0 0)
                           (Inspections r)))
            (GoInt.wrap (sumAll (Inspections r))) r)
  ∧ (Inspections r = [] →
     (computeInfractionsPastYear time_Parse time_AddDate now rs).1 !! i
     = Some (set_stats 0 0 r)).
Proof.
  intros Hi HF. unfold computeInfractionsPastYear.
  rewrite (statsLoop_lookup _ rs i r Hi HF). split; [done|].
  by intros ->.
Qed.

(** C4. [computeInfractionsPastYear] returns an error if and only if some
    inspection of some restaurant of its input has a date that
    [time.Parse] rejects. The error is the one [time.Parse] returned, and
    it ends the whole pass: the records before the first restaurant with
    such a date are updated, that restaurant and all those after it are left
    as they were; [generateRestaurantsList] returns the error and [main]
    exits with status 1. *)
Theorem computeInfractionsPastYear_fails now rs :
  ((computeInfractionsPastYear time_Parse time_AddDate now rs).2 ≠ None ↔
   ∃ r i e, r ∈ rs ∧ i ∈ Inspections r ∧ time_Parse dateLayout (Date i) = Err e)
  ∧ (∀ e,
       (computeInfractionsPastYear time_Parse time_AddDate now rs).2 = Some e →
       ∃ pre r post i,
         rs = pre ++ r :: post
         ∧ Forall (datesParse time_Parse) pre
         ∧ i ∈ Inspections r
         ∧ time_Parse dateLayout (Date i) = Err e
         ∧ (computeInfractionsPastYear time_Parse time_AddDate now rs).1
           = (computeInfractionsPastYear time_Parse time_AddDate now pre).1
             ++ r :: post
         ∧ (∀ cache,
              (generateRestaurantsList_stats time_Parse time_AddDate now
                 {| Restaurants := rs; GeocodeCache := cache |}).2 = Some e)
         ∧ main_exit_status (Some e) = 1%Z).
Proof.
  unfold generateRestaurantsList_stats, computeInfractionsPastYear. simpl. split.
  - rewrite statsLoop_ok. split.
    + intros HF. apply not_Forall_Exists in HF; [|intros r; apply Forall_dec;
        intros i; unfold dateParses;
        destruct (time_Parse dateLayout (Date i)) as [t|e];
        [left; by exists t|right; by intros [t ?]]].
      apply Exists_exists in HF as (r & Hr & Hn).
      apply not_Forall_Exists in Hn; [|intros i; unfold dateParses;
        destruct (time_Parse dateLayout (Date i)) as [t|e];
        [left; by exists t|right; by intros [t ?]]].
      apply Exists_exists in Hn as (i & Hin & Hp).
      destruct (time_Parse dateLayout (Date i)) as [t|e] eqn:E.
      * destruct Hp. by exists t.
      * by exists r, i, e.
    + intros (r & i & e & Hr & Hin & He) HF.
      rewrite Forall_forall in HF. specialize (HF r Hr).
      unfold datesParse in HF. rewrite Forall_forall in HF.
      destruct (HF i Hin) as [t Ht]. congruence.
  - intros e He.
    destruct (statsLoop_abort _ rs e He) as (pre & r & post & Hrs & HF & Hr & Hres).
    apply sumInspections_err in Hr as (i & Hin & Hi).
    exists pre, r, post, i. repeat split; try done.
    intros cache.
    by destruct (statsLoop time_Parse (time_AddDate now (-1) 0 0) rs).
Qed.

(** C7, amended. After [computeInfractionsPastYear] has returned without
    error, every restaurant whose own inspections all have counts that are
    not negative, with a sum that fits in a Go [int], has
    [InfractionsPastYear <= InfractionsTotal], whatever the inspections of
    the other restaurants hold. *)
Theorem pastYear_le_total now rs i r :
  (computeInfractionsPastYear time_Parse time_AddDate now rs).2 = None →
  rs !! i = Some r →
  countsNonNegative r →
  (sumAll (Inspections r) <= GoInt.max_int)%Z →
  ∃ r',
    (computeInfractionsPastYear time_Parse time_AddDate now rs).1 !! i = Some r'
    ∧ (InfractionsPastYear r' <= InfractionsTotal r')%Z.
Proof.
  unfold computeInfractionsPastYear. intros Hok Hi HN HB.
  apply statsLoop_ok in Hok.
  rewrite (statsLoop_lookup _ rs i r Hi) by (by apply Forall_take).
  eexists. split; [done|]. simpl.
  assert (Forall (dateParses time_Parse) (Inspections r)) as Hr
    by (rewrite Forall_lookup in Hok; by apply (Hok i r)).
  pose proof (sumInspections_stats (time_AddDate now (-1) 0 0) _ Hr) as E.
  apply (sumInspections_le _ _ 0 0 _ _ HN) in E; lia.
Qed.
End StatisticsFacts.

Lemma goodA_datesParse : datesParse GoTime.Parse Demo.goodA.
Proof. repeat constructor; eexists; vm_compute; reflexivity. Qed.

(** The aggregator on the restaurant of the end-to-end example: one
    infraction in the past year, three in all. *)
Example computeInfractionsPastYear_goodA :
  computeInfractionsPastYear GoTime.Parse GoTime.AddDate Demo.noon [Demo.goodA]
  = ([set_stats 1 3 Demo.goodA], None).
Proof. by vm_compute. Qed.

(** C1, as stated, fails for a restaurant that comes after one with a date
    that does not parse: the dates of [goodA] all parse and its inspections
    count three infractions, yet the aggregator, which returns at the date
    of [badB], leaves it with the total it had, 0. *)
Lemma stats_not_set_after_abort :
  datesParse GoTime.Parse Demo.goodA
  ∧ computeInfractionsPastYear GoTime.Parse GoTime.AddDate Demo.noon
      [Demo.badB; Demo.goodA]
    = ([Demo.badB; Demo.goodA], Some (ExternalError "parsing time"))
  ∧ InfractionsTotal Demo.goodA = 0%Z
  ∧ sumAll (Inspections Demo.goodA) = 3%Z.
Proof.
  split; [apply goodA_datesParse|]. split; [by vm_compute|]. by split.
Qed.

Lemma computeInfractionsPastYear_sums_witness :
  (computeInfractionsPastYear GoTime.Parse GoTime.AddDate Demo.noon
     [Demo.goodA; Demo.badB]).1 !! 0
  = Some (set_stats
            (GoInt.wrap (sumPastYear GoTime.Parse
                           (GoTime.AddDate Demo.noon (-1) 0 0)
                           (Inspections Demo.goodA)))
            (GoInt.wrap (sumAll (Inspections Demo.goodA))) Demo.goodA)
  ∧ (Inspections Demo.goodA = [] →
     (computeInfractionsPastYear GoTime.Parse GoTime.AddDate Demo.noon
        [Demo.goodA; Demo.badB]).1 !! 0
     = Some (set_stats 0 0 Demo.goodA)).
Proof.
  apply (computeInfractionsPastYear_sums GoTime.Parse GoTime.AddDate Demo.noon
           [Demo.goodA; Demo.badB] 0 Demo.goodA).
  - reflexivity.
  - repeat constructor; eexists; vm_compute; reflexivity.
Defined.

Lemma computeInfractionsPastYear_fails_witness :
  ∃ pre r post i,
    [Demo.goodA; Demo.badB; Demo.goodA] = pre ++ r :: post
    ∧ Forall (datesParse GoTime.Parse) pre
    ∧ i ∈ Inspections r
    ∧ GoTime.Parse dateLayout (Date i) = Err (ExternalError "parsing time")
    ∧ (computeInfractionsPastYear GoTime.Parse GoTime.AddDate Demo.noon
         [Demo.goodA; Demo.badB; Demo.goodA]).1
      = (computeInfractionsPastYear GoTime.Parse GoTime.AddDate Demo.noon pre).1
        ++ r :: post
    ∧ (∀ cache,
         (generateRestaurantsList_stats GoTime.Parse GoTime.AddDate Demo.noon
            {| Restaurants := [Demo.goodA; Demo.badB; Demo.goodA];
               GeocodeCache := cache |}).2
         = Some (ExternalError "parsing time"))
    ∧ main_exit_status (Some (ExternalError "parsing time")) = 1%Z.
Proof.
  apply (proj2 (computeInfractionsPastYear_fails GoTime.Parse GoTime.AddDate
                  Demo.noon [Demo.goodA; Demo.badB; Demo.goodA])).
  by vm_compute.
Defined.

(** C7, as stated, fails in two ways. An inspection before the past year
    with a negative count leaves the total below the count of the past
    year; and so do counts whose sum is more than an [int] holds, the total
    wrapping around. *)
Lemma pastYear_exceeds_total :
  computeInfractionsPastYear GoTime.Parse GoTime.AddDate Demo.noon [Demo.negative]
  = ([set_stats 0 (-1) Demo.negative], None)
  ∧ computeInfractionsPastYear GoTime.Parse GoTime.AddDate Demo.noon [Demo.huge]
    = ([set_stats GoInt.max_int GoInt.min_int Demo.huge], None)
  ∧ (InfractionsTotal (set_stats 0 (-1) Demo.negative)
     < InfractionsPastYear (set_stats 0 (-1) Demo.negative))%Z
  ∧ (InfractionsTotal (set_stats GoInt.max_int GoInt.min_int Demo.huge)
     < InfractionsPastYear (set_stats GoInt.max_int GoInt.min_int Demo.huge))%Z.
Proof. split; [by vm_compute|]. split; [by vm_compute|]. by split. Qed.

Lemma pastYear_le_total_witness :
  ∃ r',
    (computeInfractionsPastYear GoTime.Parse GoTime.AddDate Demo.noon
       [Demo.negative; Demo.goodA]).1 !! 1 = Some r'
    ∧ (InfractionsPastYear r' <= InfractionsTotal r')%Z.
Proof.
  apply (pastYear_le_total GoTime.Parse GoTime.AddDate Demo.noon
           [Demo.negative; Demo.goodA] 1 Demo.goodA).
  - by vm_compute.
  - reflexivity.
  - repeat constructor; by vm_compute.
  - by vm_compute.
Defined.

(** ** Detail fetch scheduler *)

Section SchedulerFacts.
Variable get : string → result document.
Variable Atoi : string → Z.
Variable refetch : bool.

Lemma scheduled_S rs n :
  scheduled refetch rs (S n)
  = scheduled refetch rs n
    ++ (if from_option (eligible refetch) false (rs !! n) then [n] else []).
Proof.
  unfold scheduled. rewrite seq_S, filter_app. f_equal. simpl.
  rewrite filter_cons, filter_nil.
  by destruct (from_option (eligible refetch) false (rs !! n)).
Qed.

Lemma elem_of_scheduled rs n i :
  i ∈ scheduled refetch rs n ↔
  i < n ∧ ∃ r, rs !! i = Some r ∧ eligible refetch r = true.
Proof.
  unfold scheduled. rewrite list_elem_of_filter, elem_of_seq. split.
  - intros [He Hi]. split; [lia|].
    destruct (rs !! i) as [r|]; [by exists r|done].
  - intros [Hi (r & -> & He)]. split; [done|lia].
Qed.


Lemma sched_inv_start rs : sched_inv refetch rs (start rs).
Proof.
  split; unfold start; cbn [store next chan pool prod sent fetched]; try done.
  - lia.
  - intros k i [? _]%lookup_replicate. done.
Qed.

Lemma sched_inv_step rs s s' :
  sched_inv refetch rs s → step get Atoi refetch s s' → sched_inv refetch rs s'.
Proof.
  intros [HL HA HS HN HC HP HF HD HT] Hstep.
  destruct Hstep; simpl in *.
  - (* skip *)
    assert (nx < length rs) by (rewrite <- HL; by eapply lookup_lt_Some).
    split; simpl; try done.
    + intros i Hi. apply HA. lia.
    + rewrite scheduled_S, <- (HA nx) by lia. rewrite H. simpl. rewrite H0.
      by rewrite app_nil_r.
  - (* send *)
    assert (nx < length rs) by (rewrite <- HL; by eapply lookup_lt_Some).
    split; simpl; try done.
    + intros i Hi. apply HA. lia.
    + rewrite scheduled_S, <- (HA nx) by lia. rewrite H. simpl. rewrite H0.
      by rewrite HS.
    + intros i [Hi| ->%list_elem_of_singleton]%elem_of_app;
        apply elem_of_app; [left; by apply HC|right; by left].
    + intros k i Hk. apply elem_of_app. left. by eapply HP.
    + intros i Hi. apply elem_of_app. left. by apply HF.
  - (* close *)
    split; simpl; try done.
    intros _. apply lookup_ge_None in H. lia.
  - (* receive *)
    split; simpl; try done.
    + intros j Hj. apply HC. by right.
    + intros k' j Hk'. destruct (decide (k = k')) as [->|Hne].
      * rewrite list_lookup_insert_eq in Hk' by (by eapply lookup_lt_Some).
        injection Hk' as <-. apply HC. by left.
      * rewrite list_lookup_insert_ne in Hk' by done. by eapply HP.
  - (* fetchDetail without error *)
    assert (i ∈ scheduled refetch rs nx) as [Hi _]%elem_of_scheduled
      by (rewrite <- HS; by eapply HP).
    split; simpl; try done.
    + by rewrite length_insert.
    + intros j Hj. rewrite list_lookup_insert_ne by lia. by apply HA.
    + intros k' j Hk'. destruct (decide (k = k')) as [->|Hne].
      * by rewrite list_lookup_insert_eq in Hk' by (by eapply lookup_lt_Some).
      * rewrite list_lookup_insert_ne in Hk' by done. by eapply HP.
    + intros j [Hj| ->%list_elem_of_singleton]%elem_of_app;
        [by apply HF|by eapply HP].
    + intros Hnil. by apply app_nil in Hnil as [_ ?].
  - (* fetchDetail with an error *)
    assert (i ∈ scheduled refetch rs nx) as [Hi _]%elem_of_scheduled
      by (rewrite <- HS; by eapply HP).
    split; simpl; try done.
    + by rewrite length_insert.
    + intros j Hj. rewrite list_lookup_insert_ne by lia. by apply HA.
    + intros k' j Hk'. destruct (decide (k = k')) as [->|Hne].
      * by rewrite list_lookup_insert_eq in Hk' by (by eapply lookup_lt_Some).
      * rewrite list_lookup_insert_ne in Hk' by done. by eapply HP.
    + intros j [Hj| ->%list_elem_of_singleton]%elem_of_app;
        [by apply HF|by eapply HP].
    + intros Hnil. by apply app_nil in Hnil as [_ ?].
  - (* a worker leaves its range *)
    split; simpl; try done.
    intros k' j Hk'. destruct (decide (k = k')) as [->|Hne].
    + by rewrite list_lookup_insert_eq in Hk' by (by eapply lookup_lt_Some).
    + rewrite list_lookup_insert_ne in Hk' by done. by eapply HP.
  - (* wg.Wait returns *)
    split; simpl; try done.
    intros _. by apply HD.
Qed.

Lemma sched_inv_reachable rs s :
  reachable get Atoi refetch rs s → sched_inv refetch rs s.
Proof.
  unfold reachable. revert s.
  apply (rtc_ind_r (sched_inv refetch rs)); [apply sched_inv_start|].
  intros s s' _ Hs IH. by eapply sched_inv_step.
Qed.


(** With nothing to send, the producer passes every record, closes the
    channel, the workers leave their loops and [fetchDetails] returns. *)
Lemma skip_all rs n pl :
  Forall (fun r => eligible refetch r = false) rs → n ≤ length rs →
  rtc (step get Atoi refetch)
    (Sched rs n [] pl Sending [] [])
    (Sched rs (length rs) [] pl Sending [] []).
Proof.
  intros HF Hn.
  remember (length rs - n) as m eqn:Hm. revert n Hn Hm.
  induction m as [|m IH]; intros n Hn Hm.
  - replace n with (length rs) by lia. apply rtc_refl.
  - destruct (lookup_lt_is_Some_2 rs n) as [r Hr]; [lia|].
    eapply rtc_l; [|apply (IH (S n)); lia].
    eapply step_skip; [done|].
    rewrite Forall_lookup in HF. by eapply HF.
Qed.

Lemma exit_all st nx pd sn ft n m :
  pd ≠ Sending →
  rtc (step get Atoi refetch)
    (Sched st nx [] (replicate n Exited ++ replicate m Receiving) pd sn ft)
    (Sched st nx [] (replicate (n + m) Exited) pd sn ft).
Proof.
  intros Hpd. revert n. induction m as [|m IH]; intros n.
  - simpl. rewrite app_nil_r, Nat.add_0_r. apply rtc_refl.
  - eapply rtc_l.
    + apply (step_exit _ _ _ st nx _ pd sn ft n); [|done].
      rewrite lookup_app_r by (by rewrite length_replicate).
      by rewrite length_replicate, Nat.sub_diag.
    + rewrite insert_app_r_alt by (by rewrite length_replicate).
      rewrite length_replicate, Nat.sub_diag. simpl.
      replace (replicate n Exited ++ Exited :: replicate m Receiving)
        with (replicate (S n) Exited ++ replicate m Receiving)
        by (by rewrite replicate_S_end, <- app_assoc).
      replace (n + S m) with (S n + m) by lia. apply IH.
Qed.

Lemma fetchDetails_returns_when_idle rs :
  Forall (fun r => eligible refetch r = false) rs →
  reachable get Atoi refetch rs
    (Sched rs (length rs) [] (replicate workers Exited) Returned [] []).
Proof.
  intros HF. unfold reachable, start.
  etrans; [apply skip_all; [done|lia]|].
  eapply rtc_l; [apply step_close, lookup_ge_None; lia|].
  etrans; [apply (exit_all _ _ Waiting _ _ 0 workers); done|].
  apply rtc_once, step_return.
  apply Forall_forall. by intros w ->%elem_of_replicate_inv.
Qed.

(** *** The scheduler when every fetch fails *)

Lemma busy_le pl : busy pl ≤ length pl.
Proof. apply length_filter. Qed.

Lemma busy_insert pl k w w' :
  pl !! k = Some w →
  busy (<[k := w']> pl) + (if decide (w ≠ Receiving) then 1 else 0)
  = busy pl + (if decide (w' ≠ Receiving) then 1 else 0).
Proof.
  unfold busy. revert k. induction pl as [|w0 pl IH]; intros k Hk; [done|].
  destruct k as [|k]; simpl in *.
  - injection Hk as ->. rewrite !filter_cons.
    repeat case_decide; simpl; lia.
  - specialize (IH k Hk). rewrite !filter_cons.
    destruct (decide (w ≠ Receiving)), (decide (w' ≠ Receiving)),
      (decide (w0 ≠ Receiving)); simpl in *; lia.
Qed.

Lemma fetchDetail_fails r :
  (∀ addr, ∃ e, get addr = Err e) →
  ∃ e, fetchDetail get Atoi r = (r, Some e).
Proof.
  intros Hget. unfold fetchDetail.
  destruct (Hget (MoreDetailsURL r)) as [e ->]. by exists e.
Qed.

Lemma blocked_inv_step rs s s' :
  (∀ addr, ∃ e, get addr = Err e) →
  Forall (fun r => eligible refetch r = true) rs →
  2 * workers < length rs →
  blocked_inv rs s → step get Atoi refetch s s' → blocked_inv rs s'.
Proof.
  intros Hget Hall Hlen [HP HS HL HN HC] Hstep.
  destruct Hstep; simpl in *; try done.
  - (* skip *)
    subst st. rewrite Forall_lookup in Hall. specialize (Hall _ _ H). congruence.
  - (* send *)
    split; simpl; try done.
    + rewrite length_app. simpl. (unfold workers in *; lia).
    + rewrite length_app. simpl. (unfold workers in *; lia).
  - (* close *)
    subst st. apply lookup_ge_None in H.
    pose proof (busy_le pl). (unfold workers in *; lia).
  - (* receive *)
    split; simpl; try done.
    + by rewrite length_insert.
    + pose proof (busy_insert pl k Receiving (Fetching i) H) as Hb.
      rewrite decide_False in Hb by (by intros []).
      rewrite decide_True in Hb by done. (unfold workers in *; lia).
    + (unfold workers in *; lia).
  - (* fetchDetail without error *)
    destruct (fetchDetail_fails r Hget) as [e He]. congruence.
  - (* fetchDetail with an error *)
    destruct (fetchDetail_fails r Hget) as [e' He].
    rewrite He in H1. injection H1 as <- <-.
    split; simpl; try done.
    + by rewrite list_insert_id.
    + by rewrite length_insert.
    + pose proof (busy_insert pl k (Fetching i) Exited H) as Hb.
      rewrite !decide_True in Hb by done. (unfold workers in *; lia).
Qed.

Lemma blocked_inv_reachable rs s :
  (∀ addr, ∃ e, get addr = Err e) →
  Forall (fun r => eligible refetch r = true) rs →
  2 * workers < length rs →
  reachable get Atoi refetch rs s → blocked_inv rs s.
Proof.
  intros Hget Hall Hlen. unfold reachable. revert s.
  apply (rtc_ind_r (blocked_inv rs)).
  - split; unfold start; cbn [store next chan pool prod sent fetched];
      [done|done|apply length_replicate|reflexivity|simpl; lia].
  - intros s s' _ Hs IH. by eapply blocked_inv_step.
Qed.
End SchedulerFacts.

Ltac run_send :=
  eapply rtc_l;
  [eapply step_send; [reflexivity|reflexivity|unfold workers; simpl; lia]|];
  simpl.

Ltac run_recv k :=
  eapply rtc_l;
  [eapply (step_recv _ _ _ _ _ _ _ _ _ _ k); reflexivity|];
  simpl.

Ltac run_fetch_err k :=
  eapply rtc_l;
  [eapply (step_fetch_err _ _ _ _ _ _ _ _ _ _ k); reflexivity|];
  simpl.

Ltac run_worker k := run_send; run_recv k; run_fetch_err k.

Lemma blockedState_reachable :
  reachable Demo.serverDown Demo.atoi0 false Demo.unfetched33 Demo.blockedState.
Proof.
  unfold reachable, start.
  run_worker 0. run_worker 1. run_worker 2. run_worker 3.
  run_worker 4. run_worker 5. run_worker 6. run_worker 7.
  run_worker 8. run_worker 9. run_worker 10. run_worker 11.
  run_worker 12. run_worker 13. run_worker 14. run_worker 15.
  do 16 run_send.
  apply rtc_refl.
Qed.

(** No worker of a pool in which all have exited is in state [w]. *)
Ltac no_worker w :=
  match goal with
  | H : _ !! _ = Some w |- _ =>
      apply list_elem_of_lookup_2 in H;
      repeat (apply elem_of_cons in H as [?|H]; [done|]);
      by apply elem_of_nil in H
  end.

Lemma blockedState_stuck s' :
  ¬ step Demo.serverDown Demo.atoi0 false Demo.blockedState s'.
Proof.
  unfold Demo.blockedState, Demo.blockedChan, Demo.blockedPool.
  intros Hstep. inversion Hstep; subst.
  - match goal with H : _ !! 32 = Some ?r, E : eligible _ ?r = false |- _ =>
      vm_compute in H; injection H as <-; vm_compute in E; discriminate E end.
  - match goal with H : length _ < workers |- _ =>
      unfold workers in H; simpl in H; lia end.
  - match goal with H : _ !! 32 = None |- _ =>
      vm_compute in H; discriminate H end.
  - no_worker Receiving.
  - match goal with H : _ !! _ = Some (Fetching ?i) |- _ => no_worker (Fetching i) end.
  - match goal with H : _ !! _ = Some (Fetching ?i) |- _ => no_worker (Fetching i) end.
Qed.

(** C9. The scheduler on thirty-three records to fetch while the web server
    answers no request. Each worker returns at its first error, sixteen
    records are taken and sixteen more fill the channel, and the producer
    waits for ever to send the thirty-third: in no state of any execution
    has the producer left its loop, so [fetchDetails] never returns; the
    state in which every worker has exited and the channel is full is
    reached, and no goroutine can take a step there. *)
Theorem fetchDetails_blocks_after_workers_exit :
  (∀ s, reachable Demo.serverDown Demo.atoi0 false Demo.unfetched33 s →
        prod s = Sending ∧ next s ≤ 2 * workers)
  ∧ reachable Demo.serverDown Demo.atoi0 false Demo.unfetched33 Demo.blockedState
  ∧ (∀ s', ¬ step Demo.serverDown Demo.atoi0 false Demo.blockedState s').
Proof.
  split; [|split; [apply blockedState_reachable|apply blockedState_stuck]].
  intros s Hs.
  apply blocked_inv_reachable in Hs as [HP HS HL HN HC].
  - split; [done|]. pose proof (busy_le (pool s)). lia.
  - intros addr. by eexists.
  - apply Forall_forall. by intros r ->%elem_of_replicate_inv.
  - unfold Demo.unfetched33. rewrite length_replicate. unfold workers. lia.
Qed.

(** C3. [fetchDetails] sends a record to the workers only if it has no
    inspection or [*refetch] is set, but it does not send every such
    record. On thirty-three records without inspections, [*refetch] unset,
    while the web server answers no request, the thirty-third record is one
    to fetch, and in no state of any execution has it been sent or has
    [fetchDetail] been called on it: the execution ends in the state in
    which thirty-two records are sent, every worker has exited, the channel
    is full and no goroutine can take a step. *)
Theorem fetchDetails_leaves_record_unsent :
  Demo.unfetched33 !! 32 = Some Demo.unfetched
  ∧ Inspections Demo.unfetched = []
  ∧ eligible false Demo.unfetched = true
  ∧ (∀ s, reachable Demo.serverDown Demo.atoi0 false Demo.unfetched33 s →
          (32 ∉ sent s) ∧ (32 ∉ fetched s))
  ∧ reachable Demo.serverDown Demo.atoi0 false Demo.unfetched33 Demo.blockedState
  ∧ sent Demo.blockedState = seq 0 32
  ∧ (∀ s', ¬ step Demo.serverDown Demo.atoi0 false Demo.blockedState s').
Proof.
  split; [done|]. split; [done|]. split; [done|].
  split; [|split; [apply blockedState_reachable|split; [done|apply blockedState_stuck]]].
  intros s Hs.
  assert (32 ∉ sent s) as Hsent.
  { pose proof (sched_inv_reachable _ _ _ _ _ Hs) as HI.
    apply blocked_inv_reachable in Hs as [HP HS HL HN HC].
    - rewrite (inv_sent _ _ _ HI). intros [Hlt _]%elem_of_scheduled.
      pose proof (busy_le (pool s)). unfold workers in *. lia.
    - intros addr. by eexists.
    - apply Forall_forall. by intros r ->%elem_of_replicate_inv.
    - unfold Demo.unfetched33. rewrite length_replicate. unfold workers. lia. }
  split; [done|]. intros Hf. apply Hsent.
  by apply (inv_fetched _ _ _ (sched_inv_reachable _ _ _ _ _ Hs)).
Qed.

(** *** A worker stops at its first error, and no record is fetched twice *)

Lemma holding_insert pl k w w' :
  pl !! k = Some w →
  holding (<[k := w']> pl) ++ held w ≡ₚ held w' ++ holding pl.
Proof.
  unfold holding. revert k. induction pl as [|w0 pl IH]; intros k Hk; [done|].
  destruct k as [|k]; cbn [lookup list_lookup insert list_insert] in *.
  - injection Hk as ->. rewrite !bind_cons.
    rewrite <- !app_assoc. f_equiv. apply Permutation_app_comm.
  - rewrite !bind_cons. rewrite <- app_assoc, (IH k Hk).
    rewrite !app_assoc. f_equiv. apply Permutation_app_comm.
Qed.

Section WorkerFacts.
Variable get : string → result document.
Variable Atoi : string → Z.
Variable refetch : bool.

Lemma once_inv_step s s' :
  once_inv s → step get Atoi refetch s s' → once_inv s'.
Proof.
  intros [HN HB] Hstep. destruct Hstep; simpl in *.
  - split; simpl; [done|]. eapply Forall_impl; [exact HB|]. simpl. lia.
  - assert (Hp : (ch ++ [nx]) ++ holding pl ++ ft ≡ₚ nx :: ch ++ holding pl ++ ft).
    { rewrite <- app_assoc. simpl. by rewrite <- Permutation_middle. }
    split; simpl; rewrite Hp.
    + apply NoDup_cons. split; [|done].
      intros Hin. rewrite Forall_forall in HB. specialize (HB nx Hin). lia.
    + constructor; [lia|]. eapply Forall_impl; [exact HB|]. simpl. lia.
  - done.
  - assert (Hp : ch ++ holding (<[k:=Fetching i]> pl) ++ ft
                 ≡ₚ i :: ch ++ holding pl ++ ft).
    { pose proof (holding_insert pl k Receiving (Fetching i) H) as Hh.
      simpl in Hh. rewrite app_nil_r in Hh. rewrite Hh. simpl.
      by rewrite <- Permutation_middle. }
    split; simpl; by rewrite Hp.
  - assert (Hp : ch ++ holding (<[k:=Receiving]> pl) ++ ft ++ [i]
                 ≡ₚ ch ++ holding pl ++ ft).
    { pose proof (holding_insert pl k (Fetching i) Receiving H) as Hh.
      simpl in Hh. rewrite <- Hh.
      rewrite <- !app_assoc. do 2 f_equiv. apply Permutation_app_comm. }
    split; simpl; by rewrite Hp.
  - assert (Hp : ch ++ holding (<[k:=Exited]> pl) ++ ft ++ [i]
                 ≡ₚ ch ++ holding pl ++ ft).
    { pose proof (holding_insert pl k (Fetching i) Exited H) as Hh.
      simpl in Hh. rewrite <- Hh.
      rewrite <- !app_assoc. do 2 f_equiv. apply Permutation_app_comm. }
    split; simpl; by rewrite Hp.
  - pose proof (holding_insert pl k Receiving Exited H) as Hh.
    simpl in Hh. rewrite app_nil_r in Hh.
    split; simpl in *; by rewrite Hh.
  - done.
Qed.

Lemma once_inv_reachable rs s :
  reachable get Atoi refetch rs s → once_inv s.
Proof.
  unfold reachable. revert s. apply (rtc_ind_r once_inv).
  - split; by vm_compute; constructor.
  - intros s s' _ Hs IH. by eapply once_inv_step.
Qed.

(** A worker that has exited stays so. *)
Lemma exited_step s s' k :
  step get Atoi refetch s s' →
  pool s !! k = Some Exited → pool s' !! k = Some Exited.
Proof.
  intros Hstep Hk. destruct Hstep; simpl in *; try done.
  all: destruct (decide (k0 = k)) as [->|Hne];
    [congruence || (rewrite list_lookup_insert_eq; [done|by eapply lookup_lt_Some])
    |by rewrite list_lookup_insert_ne].
Qed.
End WorkerFacts.

(** X1. In every execution of [fetchDetails(rs)], [fetchDetail] is called at
    most once on each record - nothing is retried - and a worker that has
    returned, as a worker does at its first error, takes no further record:
    it stays exited in every later state. *)
Theorem worker_exit_is_final
    (get : string → result document) (Atoi : string → Z) (refetch : bool)
    (rs : list restaurant) (s : sched) :
  reachable get Atoi refetch rs s →
  NoDup (fetched s)
  ∧ (∀ s' k, rtc (step get Atoi refetch) s s' →
             pool s !! k = Some Exited → pool s' !! k = Some Exited).
Proof.
  intros Hs. split.
  - apply once_inv_reachable in Hs as [HN _].
    apply NoDup_app in HN as (_ & _ & HN). by apply NoDup_app in HN as (_ & _ & HN).
  - clear Hs. intros s' k Hrun.
    induction Hrun as [|s1 s2 s3 Hstep _ IH]; [done|].
    intros Hk. apply IH. by eapply exited_step.
Qed.

Lemma worker_exit_is_final_witness :
  NoDup (fetched Demo.blockedState)
  ∧ (∀ s' k,
       rtc (step Demo.serverDown Demo.atoi0 false) Demo.blockedState s' →
       pool Demo.blockedState !! k = Some Exited → pool s' !! k = Some Exited).
Proof.
  apply (worker_exit_is_final Demo.serverDown Demo.atoi0 false
           Demo.unfetched33 Demo.blockedState).
  apply blockedState_reachable.
Defined.

(** * Further properties *)

Lemma Split_cons s sep : ∃ piece pieces, GoStrings.Split s sep = piece :: pieces.
Proof.
  destruct s as [|c s]; simpl; [by eexists _, _|].
  destruct (Ascii.eqb c sep); [by eexists _, _|].
  destruct (GoStrings.Split s sep); by eexists _, _.
Qed.

Lemma Join_cons_cons e e' rest sep :
  GoStrings.Join (e :: e' :: rest) sep
  = String.append e (String.append sep (GoStrings.Join (e' :: rest) sep)).
Proof. done. Qed.

Lemma Join_String c piece pieces sep :
  GoStrings.Join (String c piece :: pieces) sep
  = String c (GoStrings.Join (piece :: pieces) sep).
Proof. destruct pieces; done. Qed.

Lemma normalize_replaceNewlines s : normalize s = replaceNewlines s.
Proof.
  unfold normalize. induction s as [|c s IH]; [done|].
  cbn [GoStrings.Split replaceNewlines].
  destruct (Ascii.eqb c GoStrings.newline).
  - destruct (Split_cons s GoStrings.newline) as (p & ps & E).
    rewrite E in *. rewrite Join_cons_cons, IH. done.
  - destruct (Split_cons s GoStrings.newline) as (p & ps & E).
    rewrite E in *. by rewrite Join_String, IH.
Qed.

Lemma replaceNewlines_hasNewline s : hasNewline (replaceNewlines s) = false.
Proof.
  induction s as [|c s IH]; [done|]. simpl.
  destruct (Ascii.eqb c GoStrings.newline) eqn:E; simpl; [done|].
  by rewrite E.
Qed.

Lemma replaceNewlines_id s : hasNewline s = false → replaceNewlines s = s.
Proof.
  induction s as [|c s IH]; [done|]. simpl.
  destruct (Ascii.eqb c GoStrings.newline); [done|]. simpl.
  intros H. by rewrite IH.
Qed.

(** X2. The key under which [geocode] looks an address up, and the
    address it sends to the service, is the address with every line break
    replaced by a comma and a space. It holds no line break; normalizing it
    again changes nothing; an address without a line break is its own key;
    and the key is empty only for the empty address. *)
Theorem normalize_replaces_line_breaks (address : string) :
  normalize address = replaceNewlines address
  ∧ hasNewline (normalize address) = false
  ∧ normalize (normalize address) = normalize address
  ∧ (hasNewline address = false → normalize address = address)
  ∧ (normalize address = "" ↔ address = "").
Proof.
  rewrite !normalize_replaceNewlines.
  split; [done|]. split; [apply replaceNewlines_hasNewline|].
  split; [apply replaceNewlines_id, replaceNewlines_hasNewline|].
  split; [apply replaceNewlines_id|].
  destruct address as [|c s]; [done|]. simpl.
  destruct (Ascii.eqb c GoStrings.newline); done.
Qed.

Section CacheFacts.
Variable Geocode : list string → string → result (float * float).

Lemma geocode_cases address cache calls :
  (address = "" ∧ geocode Geocode address cache calls = (Err AddressEmpty, cache, calls))
  ∨ (address ≠ "" ∧ ∃ ll, cache !! normalize address = Some ll
       ∧ geocode Geocode address cache calls = (Ok ll, cache, calls))
  ∨ (address ≠ "" ∧ cache !! normalize address = None
       ∧ ∃ e, Geocode calls (normalize address) = Err e
       ∧ geocode Geocode address cache calls
         = (Err e, cache, calls ++ [normalize address]))
  ∨ (address ≠ "" ∧ cache !! normalize address = None
       ∧ ∃ lat lng, Geocode calls (normalize address) = Ok (lat, lng)
       ∧ geocode Geocode address cache calls
         = (Ok {| Lat := lat; Long := lng |},
            <[normalize address := {| Lat := lat; Long := lng |}]> cache,
            calls ++ [normalize address])).
Proof.
  unfold geocode. destruct address as [|c s]; [by left|]. right.
  cbn [String.length Nat.eqb].
  destruct (cache !! normalize (String c s)) as [ll|] eqn:E.
  - left. split; [done|]. by exists ll.
  - right. destruct (Geocode calls (normalize (String c s))) as [[lat lng]|e] eqn:G.
    + right. split; [done|]. split; [done|]. by exists lat, lng.
    + left. split; [done|]. split; [done|]. by exists e.
Qed.

Lemma db_geocode_MadeMap address m calls :
  db_geocode Geocode address (MadeMap m) calls
  = Returns (let '(res, cache, calls') := geocode Geocode address m calls in
             (res, MadeMap cache, calls')).
Proof.
  unfold db_geocode, geocode. simpl.
  destruct (Nat.eqb (String.length address) 0); [done|].
  destruct (m !! normalize address); [done|].
  by destruct (Geocode calls (normalize address)) as [[lat lng]|e].
Qed.

(** X3. A non-empty address that is not in the cache, for which the service
    answers. When the cache is the nil map, [geocode] panics at the
    assignment to the cache. Otherwise it returns the coordinate of the
    answer, stores it under the normalized address and sends one request;
    and after that, [geocode] on any non-empty address with the same
    normalized form returns the same coordinate, sends no request and
    leaves the cache as it is. *)
Theorem geocode_memoizes address cache calls lat lng :
  address ≠ "" →
  entries cache !! normalize address = None →
  Geocode calls (normalize address) = Ok (lat, lng) →
  match cache with
  | NilMap => db_geocode Geocode address cache calls = Panics
  | MadeMap m =>
      db_geocode Geocode address cache calls
      = Returns (Ok {| Lat := lat; Long := lng |},
                 MadeMap (<[normalize address := {| Lat := lat; Long := lng |}]> m),
                 calls ++ [normalize address])
      ∧ (∀ address',
           address' ≠ "" → normalize address' = normalize address →
           db_geocode Geocode address'
             (MadeMap (<[normalize address := {| Lat := lat; Long := lng |}]> m))
             (calls ++ [normalize address])
           = Returns (Ok {| Lat := lat; Long := lng |},
                      MadeMap (<[normalize address := {| Lat := lat; Long := lng |}]> m),
                      calls ++ [normalize address]))
  end.
Proof.
  intros Hne Hmiss HG. destruct cache as [|m]; simpl in Hmiss.
  - unfold db_geocode. destruct address as [|c a]; [done|].
    cbn [String.length Nat.eqb]. cbn [entries]. by rewrite lookup_empty, HG.
  - split.
    + rewrite db_geocode_MadeMap.
      destruct (geocode_cases address m calls)
        as [[? _]|[(_ & ll & ? & _)|[(_ & _ & e & ? & _)|(_ & _ & la & ln & HG' & ->)]]];
        congruence.
    + intros address' Hne' Hn. rewrite db_geocode_MadeMap.
      destruct (geocode_cases address'
                  (<[normalize address := {| Lat := lat; Long := lng |}]> m)
                  (calls ++ [normalize address]))
        as [[? _]|[(_ & ll & Hl & ->)|[(_ & Hl & _)|(_ & Hl & _)]]];
        try done; rewrite Hn, lookup_insert_eq in Hl; congruence.
Qed.

(** X4. [geocode] never removes or changes an entry of the cache: the cache
    before the call is contained in the cache after it. When it returns an
    error the cache is unchanged; when it returns a coordinate the address is
    not empty and the cache holds the coordinate under the normalized
    address; no other key is touched. *)
Theorem geocode_cache_grows address cache calls :
  cache ⊆ (geocode Geocode address cache calls).1.2
  ∧ (∀ e, (geocode Geocode address cache calls).1.1 = Err e →
          (geocode Geocode address cache calls).1.2 = cache)
  ∧ (∀ ll, (geocode Geocode address cache calls).1.1 = Ok ll →
           (geocode Geocode address cache calls).1.2 !! normalize address = Some ll
           ∧ address ≠ "")
  ∧ (∀ key, key ≠ normalize address →
            (geocode Geocode address cache calls).1.2 !! key = cache !! key).
Proof.
  destruct (geocode_cases address cache calls)
    as [[? ->]|[(? & ll & ? & ->)|[(? & ? & e & ? & ->)|(? & ? & la & ln & ? & ->)]]];
    simpl.
  - split_and!; done.
  - split_and!; [done|done| |done]. by intros ? [= <-].
  - split_and!; done.
  - split_and!; [by apply insert_subseteq|done| |].
    + intros ? [= <-]. by rewrite lookup_insert_eq.
    + intros key Hk. by rewrite lookup_insert_ne.
Qed.
End CacheFacts.

Section PassFacts.
Variable Geocode : list string → string → result (float * float).

Lemma geocoded_weaken cache cache' r r' :
  cache ⊆ cache' → geocoded cache r r' → geocoded cache' r r'.
Proof.
  unfold geocoded. intros Hsub.
  destruct (String.eqb (Community r) vancouverWestside); [|done].
  intros [Hne (ll & Hl & ->)]. split; [done|]. exists ll. split; [|done].
  by eapply lookup_weaken.
Qed.

Lemma geocodeLoop_cache rs cache calls :
  cache ⊆ (geocodeLoop Geocode rs cache calls).1.1.2
  ∧ (∃ new,
       (geocodeLoop Geocode rs cache calls).1.2 = calls ++ new
       ∧ NoDup new ∧ ∀ a, a ∈ new → cache !! a = None)
  ∧ ((geocodeLoop Geocode rs cache calls).2 = None →
     Forall2 (geocoded (geocodeLoop Geocode rs cache calls).1.1.2) rs
       (geocodeLoop Geocode rs cache calls).1.1.1).
Proof.
  revert cache calls. induction rs as [|r rs IH]; intros cache calls.
  - simpl. split; [done|]. split; [|by constructor].
    exists []. rewrite app_nil_r. split; [done|]. split; [constructor|].
    intros a Ha. by apply elem_of_nil in Ha.
  - simpl. unfold geocoded at 1.
    destruct (String.eqb (Community r) vancouverWestside) eqn:W; simpl.
    + destruct (geocode_cases Geocode (SiteAddress r) cache calls)
        as [[He Hg]|[(Hne & ll & Hl & Hg)
           |[(Hne & Hm & e & HG & Hg)|(Hne & Hm & lat & lng & HG & Hg)]]];
        rewrite Hg; simpl.
      * split; [done|]. split; [|done].
        exists []. rewrite app_nil_r. split; [done|]. split; [constructor|].
        intros a Ha. by apply elem_of_nil in Ha.
      * destruct (IH cache calls) as (Hsub' & Hnew & Hall).
        destruct (geocodeLoop Geocode rs cache calls) as [[[rs' cache'] calls'] err].
        simpl in *. split; [done|]. split; [done|].
        intros ->. constructor; [|by apply Hall].
        unfold geocoded. rewrite W. split; [done|]. exists ll.
        split; [by eapply lookup_weaken|done].
      * split; [done|]. split; [|done].
        exists [normalize (SiteAddress r)]. split; [done|].
        split; [apply NoDup_singleton|].
        by intros a ->%list_elem_of_singleton.
      * set (ll := {| Lat := lat; Long := lng |}) in *.
        destruct (IH (<[normalize (SiteAddress r) := ll]> cache)
                     (calls ++ [normalize (SiteAddress r)]))
          as (Hsub' & (new & Hnew & Hnd & Hmiss) & Hall).
        destruct (geocodeLoop Geocode rs (<[normalize (SiteAddress r) := ll]> cache)
                    (calls ++ [normalize (SiteAddress r)]))
          as [[[rs' cache'] calls'] err].
        simpl in *.
        assert (cache ⊆ <[normalize (SiteAddress r) := ll]> cache) as Hsub
          by (by apply insert_subseteq).
        split; [by etrans|]. split.
        -- exists (normalize (SiteAddress r) :: new).
           split; [by rewrite Hnew, <- app_assoc|]. split.
           ++ apply NoDup_cons. split; [|done]. intros Hin.
              apply Hmiss in Hin. by rewrite lookup_insert_eq in Hin.
           ++ intros a [->|Ha]%elem_of_cons; [done|].
              apply Hmiss in Ha. by eapply lookup_weaken_None.
        -- intros ->. constructor; [|by apply Hall].
           unfold geocoded. rewrite W. split; [done|]. exists ll.
           split; [|done]. eapply lookup_weaken; [|exact Hsub'].
           by rewrite lookup_insert_eq.
    + destruct (IH cache calls) as (Hsub' & Hnew & Hall).
      destruct (geocodeLoop Geocode rs cache calls) as [[[rs' cache'] calls'] err].
      simpl in *. split; [done|]. split; [done|].
      intros ->. constructor; [|by apply Hall].
      unfold geocoded. by rewrite W.
Qed.
End PassFacts.

(** X5. A geocoding pass never removes or changes an entry of the cache,
    whether or not it returns an error. The requests it sends to the service
    are pairwise distinct, and none of them is for a key the cache held when
    the pass started. *)
Theorem geocodeRestaurants_requests
    (Geocode : list string → string → result (float * float))
    (d : db) (calls : list string) :
  GeocodeCache d ⊆ GeocodeCache (geocodeRestaurants Geocode d calls).1.1
  ∧ ∃ new,
      (geocodeRestaurants Geocode d calls).1.2 = calls ++ new
      ∧ NoDup new
      ∧ ∀ a, a ∈ new → GeocodeCache d !! a = None.
Proof.
  pose proof (geocodeLoop_cache Geocode (Restaurants d) (GeocodeCache d) calls)
    as (Hsub & Hnew & _).
  unfold geocodeRestaurants.
  by destruct (geocodeLoop Geocode (Restaurants d) (GeocodeCache d) calls)
    as [[[rs' cache'] calls'] err].
Qed.

(** X6. After a geocoding pass that returns no error, every record of the
    community "Vancouver - Westside" has a non-empty address, the cache
    holds a coordinate under its normalized address, and the record at its
    position is the record with this coordinate, its other fields
    unchanged. *)
Theorem geocodeRestaurants_success
    (Geocode : list string → string → result (float * float))
    (d : db) (calls : list string) (i : nat) (r : restaurant) :
  (geocodeRestaurants Geocode d calls).2 = None →
  Restaurants d !! i = Some r →
  Community r = vancouverWestside →
  SiteAddress r ≠ ""
  ∧ ∃ ll,
      GeocodeCache (geocodeRestaurants Geocode d calls).1.1
        !! normalize (SiteAddress r) = Some ll
      ∧ Restaurants (geocodeRestaurants Geocode d calls).1.1 !! i
        = Some (set_LatLong ll r).
Proof.
  pose proof (geocodeLoop_cache Geocode (Restaurants d) (GeocodeCache d) calls)
    as (_ & _ & Hall).
  unfold geocodeRestaurants.
  destruct (geocodeLoop Geocode (Restaurants d) (GeocodeCache d) calls)
    as [[[rs' cache'] calls'] err].
  simpl in *. intros -> Hi HC.
  destruct (Forall2_lookup_l _ _ _ _ _ (Hall eq_refl) Hi) as (r' & Hi' & Hg).
  unfold geocoded in Hg. rewrite HC, String.eqb_refl in Hg.
  destruct Hg as [Hne (ll & Hl & ->)]. split; [done|]. by exists ll.
Qed.

Lemma geocodeRestaurants_success_witness :
  SiteAddress (Demo.mk "A" vancouverWestside Demo.mall [] zeroLatLong) ≠ ""
  ∧ ∃ ll,
      GeocodeCache (geocodeRestaurants Demo.serviceCampus
         {| Restaurants := [Demo.mk "A" vancouverWestside Demo.mall [] zeroLatLong];
            GeocodeCache := ∅ |} []).1.1
        !! normalize (SiteAddress (Demo.mk "A" vancouverWestside Demo.mall [] zeroLatLong))
      = Some ll
      ∧ Restaurants (geocodeRestaurants Demo.serviceCampus
         {| Restaurants := [Demo.mk "A" vancouverWestside Demo.mall [] zeroLatLong];
            GeocodeCache := ∅ |} []).1.1 !! 0
        = Some (set_LatLong ll (Demo.mk "A" vancouverWestside Demo.mall [] zeroLatLong)).
Proof.
  apply (geocodeRestaurants_success Demo.serviceCampus
           {| Restaurants := [Demo.mk "A" vancouverWestside Demo.mall [] zeroLatLong];
              GeocodeCache := ∅ |} [] 0
           (Demo.mk "A" vancouverWestside Demo.mall [] zeroLatLong)).
  - by vm_compute.
  - reflexivity.
  - reflexivity.
Defined.

Lemma geocode_memoizes_witness :
  db_geocode Demo.serviceCampus Demo.mall (MadeMap ∅) []
  = Returns (Ok {| Lat := 49.25%float; Long := (-123.25)%float |},
             MadeMap (<[normalize Demo.mall
                        := {| Lat := 49.25%float; Long := (-123.25)%float |}]> ∅),
             [] ++ [normalize Demo.mall])
  ∧ (∀ address',
       address' ≠ "" → normalize address' = normalize Demo.mall →
       db_geocode Demo.serviceCampus address'
         (MadeMap (<[normalize Demo.mall
                     := {| Lat := 49.25%float; Long := (-123.25)%float |}]> ∅))
         ([] ++ [normalize Demo.mall])
       = Returns (Ok {| Lat := 49.25%float; Long := (-123.25)%float |},
                  MadeMap (<[normalize Demo.mall
                             := {| Lat := 49.25%float; Long := (-123.25)%float |}]> ∅),
                  [] ++ [normalize Demo.mall])).
Proof.
  apply (geocode_memoizes Demo.serviceCampus Demo.mall (MadeMap ∅) []
           49.25%float (-123.25)%float).
  - discriminate.
  - reflexivity.
  - reflexivity.
Defined.

(** ** Aggregator *)
Section StatsMore.
Variable time_Parse : string → string → result Z.
Variable time_AddDate : Z → Z → Z → Z → Z.

Lemma statsLoop_frame yearAgo rs :
  Forall2 (fun r r' => r' = set_stats (InfractionsPastYear r') (InfractionsTotal r') r)
    rs (statsLoop time_Parse yearAgo rs).1.
Proof.
  induction rs as [|r rs IH]; simpl; [constructor|].
  destruct (sumInspections time_Parse yearAgo (Inspections r) 0 0) as [[c t]|e].
  - destruct (statsLoop time_Parse yearAgo rs) as [rest' err].
    simpl in *. by constructor.
  - simpl. apply Forall2_cons. split; [by destruct r|].
    clear. induction rs as [|r rs IH]; constructor; [by destruct r|done].
Qed.


Lemma statsLoop_map yearAgo rs :
  (statsLoop time_Parse yearAgo rs).2 = None →
  (statsLoop time_Parse yearAgo rs).1
  = map (fun r => set_stats
                    (GoInt.wrap (sumPastYear time_Parse yearAgo (Inspections r)))
                    (GoInt.wrap (sumAll (Inspections r))) r) rs.
Proof.
  intros Hok. apply (statsLoop_ok time_Parse time_AddDate) in Hok.
  induction Hok as [|r rs Hr _ IH]; simpl; [done|].
  rewrite (sumInspections_stats _ yearAgo _ Hr).
  destruct (statsLoop time_Parse yearAgo rs) as [rest' err]. simpl in *.
  by rewrite IH.
Qed.

End StatsMore.

Section FetchDetailFacts.
Variable get : string → result document.
Variable Atoi : string → Z.

Lemma summaryRows_fold rows r :
  fold_left (summaryRow Atoi) rows r
  = set_OutstandingCritical
      (from_option Atoi (OutstandingCriticalInfractions r)
         (lastLabelled criticalLabel rows))
      (set_OutstandingNonCritical
         (from_option Atoi (OutstandingNonCriticalInfractions r)
            (lastLabelled nonCriticalLabel rows)) r).
Proof.
  revert r. induction rows as [|[l field] rows IH]; intros r.
  - by destruct r.
  - cbn [fold_left lastLabelled]. rewrite IH. unfold summaryRow.
    fold nonCriticalLabel criticalLabel.
    destruct (String.eqb l nonCriticalLabel) eqn:E1.
    + apply String.eqb_eq in E1 as ->.
      replace (String.eqb nonCriticalLabel criticalLabel) with false by done.
      destruct (lastLabelled criticalLabel rows),
        (lastLabelled nonCriticalLabel rows); by destruct r.
    + destruct (String.eqb l criticalLabel) eqn:E2;
        destruct (lastLabelled criticalLabel rows),
          (lastLabelled nonCriticalLabel rows); by destruct r.
Qed.

(** X8. When the page of a record cannot be fetched, [fetchDetail] returns
    the error and leaves the record as it was. Otherwise it returns no
    error; the inspections of the record are replaced by the rows of the
    page, in the order of the page; each of the two outstanding counts is
    read off the last row of the page that carries its label, and is left
    as it was when no row does; nothing else changes. *)
Theorem fetchDetail_result (r : restaurant) :
  match get (MoreDetailsURL r) with
  | Err e => fetchDetail get Atoi r = (r, Some e)
  | Ok doc =>
      fetchDetail get Atoi r
      = (set_Inspections (map (inspectionOfRow Atoi) (inspectionRows doc))
           (set_OutstandingCritical
              (from_option Atoi (OutstandingCriticalInfractions r)
                 (lastLabelled criticalLabel (summaryRows doc)))
              (set_OutstandingNonCritical
                 (from_option Atoi (OutstandingNonCriticalInfractions r)
                    (lastLabelled nonCriticalLabel (summaryRows doc))) r)),
         None)
  end.
Proof.
  unfold fetchDetail. destruct (get (MoreDetailsURL r)) as [doc|e]; [|done].
  by rewrite summaryRows_fold.
Qed.

Lemma fetchDetail_LatLong r : LatLong (fetchDetail get Atoi r).1 = LatLong r.
Proof.
  unfold fetchDetail. destruct (get (MoreDetailsURL r)); [|done].
  by rewrite summaryRows_fold.
Qed.

Lemma fetchDetail_url r :
  MoreDetailsURL (fetchDetail get Atoi r).1 = MoreDetailsURL r.
Proof.
  unfold fetchDetail. destruct (get (MoreDetailsURL r)); [|done].
  by rewrite summaryRows_fold.
Qed.

(** X9. A call of [fetchDetail] that returns an error leaves the record as
    it was. After a call that returns none, the record is still one that
    [fetchDetails] sends to the workers on a run without [-refetch] exactly
    when the page listed no inspection. In both cases the address of the
    page and the coordinate of the record are unchanged. *)
Theorem fetchDetail_eligible (r : restaurant) :
  (∀ e, (fetchDetail get Atoi r).2 = Some e →
        (fetchDetail get Atoi r).1 = r)
  ∧ ((fetchDetail get Atoi r).2 = None →
     (eligible false (fetchDetail get Atoi r).1 = true ↔
      ∃ doc, get (MoreDetailsURL r) = Ok doc ∧ inspectionRows doc = []))
  ∧ MoreDetailsURL (fetchDetail get Atoi r).1 = MoreDetailsURL r
  ∧ LatLong (fetchDetail get Atoi r).1 = LatLong r.
Proof.
  split; [|split; [|split; [apply fetchDetail_url|apply fetchDetail_LatLong]]].
  - unfold fetchDetail. by destruct (get (MoreDetailsURL r)).
  - unfold fetchDetail.
    destruct (get (MoreDetailsURL r)) as [doc|e]; [|done].
    intros _. unfold eligible. simpl. rewrite orb_false_r, Nat.eqb_eq.
    rewrite length_map. split.
    + intros Hl. exists doc. split; [done|]. by apply nil_length_inv.
    + intros (doc' & [= <-] & ->). done.
Qed.
End FetchDetailFacts.

Lemma holding_elem pl k i : pl !! k = Some (Fetching i) → i ∈ holding pl.
Proof.
  intros Hk. unfold holding. apply list_elem_of_bind.
  exists (Fetching i). split; [by left|by eapply list_elem_of_lookup_2].
Qed.

Lemma holding_exited pl : Forall (fun w => w = Exited) pl → holding pl = [].
Proof.
  unfold holding. induction 1 as [|w pl -> _ IH]; [done|].
  by rewrite bind_cons, IH.
Qed.

Lemma holding_length_insert pl k w w' :
  pl !! k = Some w →
  length (holding (<[k := w']> pl)) + length (held w)
  = length (held w') + length (holding pl).
Proof.
  intros Hk. pose proof (holding_insert pl k w w' Hk) as Hp.
  apply Permutation_length in Hp. by rewrite !length_app in Hp.
Qed.

Lemma active_le pl : active pl ≤ length pl.
Proof. apply length_filter. Qed.

Lemma active_insert pl k w w' :
  pl !! k = Some w →
  active (<[k := w']> pl) + (if decide (w ≠ Exited) then 1 else 0)
  = active pl + (if decide (w' ≠ Exited) then 1 else 0).
Proof.
  unfold active. revert k. induction pl as [|w0 pl IH]; intros k Hk; [done|].
  destruct k as [|k]; simpl in *.
  - injection Hk as ->. rewrite !filter_cons.
    repeat case_decide; simpl; lia.
  - specialize (IH k Hk). rewrite !filter_cons.
    destruct (decide (w ≠ Exited)), (decide (w' ≠ Exited)),
      (decide (w0 ≠ Exited)); simpl in *; lia.
Qed.

Section FlowFacts.
Variable get : string → result document.
Variable Atoi : string → Z.
Variable refetch : bool.

(** Every step brings the end nearer. *)
Lemma step_measure s s' :
  step get Atoi refetch s s' → measure s' < measure s.
Proof.
  intros Hstep. destruct Hstep; unfold measure; simpl.
  - apply lookup_lt_Some in H. lia.
  - apply lookup_lt_Some in H. rewrite length_app. simpl. lia.
  - lia.
  - pose proof (holding_length_insert pl k Receiving (Fetching i) H) as Hh.
    pose proof (active_insert pl k Receiving (Fetching i) H) as Ha.
    rewrite !decide_True in Ha by done. simpl in Hh. lia.
  - pose proof (holding_length_insert pl k (Fetching i) Receiving H) as Hh.
    pose proof (active_insert pl k (Fetching i) Receiving H) as Ha.
    rewrite !decide_True in Ha by done. simpl in Hh.
    rewrite length_insert. lia.
  - pose proof (holding_length_insert pl k (Fetching i) Exited H) as Hh.
    pose proof (active_insert pl k (Fetching i) Exited H) as Ha.
    rewrite decide_True in Ha by done.
    rewrite decide_False in Ha by (by intros []). simpl in Hh.
    rewrite length_insert. lia.
  - pose proof (holding_length_insert pl k Receiving Exited H) as Hh.
    pose proof (active_insert pl k Receiving Exited H) as Ha.
    rewrite decide_True in Ha by done.
    rewrite decide_False in Ha by (by intros []). simpl in Hh. lia.
  - lia.
Qed.

Lemma nsteps_measure n s s' :
  nsteps (step get Atoi refetch) n s s' → n + measure s' ≤ measure s.
Proof.
  induction 1 as [|n s1 s2 s3 Hstep _ IH]; [lia|].
  apply step_measure in Hstep. lia.
Qed.

Lemma measure_start rs : measure (start rs) = 3 * length rs + 18.
Proof.
  unfold measure, start. cbn [store next chan pool prod].
  replace (length (holding (replicate workers Receiving))) with 0 by done.
  replace (active (replicate workers Receiving)) with 16 by done.
  simpl. lia.
Qed.

(** X10. No execution of [fetchDetails(rs)] is longer than
    [3 * len(rs) + 18] steps of the producer and the workers: the
    scheduler cannot run forever. *)
Theorem fetchDetails_steps_bounded (rs : list restaurant) (n : nat) (s : sched) :
  nsteps (step get Atoi refetch) n (start rs) s →
  n ≤ 3 * length rs + 18.
Proof.
  intros H%nsteps_measure. rewrite measure_start in H. lia.
Qed.

Lemma flow_inv_start rs : flow_inv get Atoi rs (start rs).
Proof.
  split; unfold start; cbn [store next chan pool prod sent fetched].
  - done.
  - intros i r0 Hi. rewrite decide_False; [done|]. by intros ?%elem_of_nil.
  - apply length_replicate.
  - simpl. lia.
  - done.
Qed.

Lemma flow_inv_step rs s s' :
  sched_inv refetch rs s → once_inv s → flow_inv get Atoi rs s →
  step get Atoi refetch s s' → flow_inv get Atoi rs s'.
Proof.
  intros HI [HN HB] [HS HT HP HC HR] Hstep.
  destruct Hstep; simpl in *.
  - split; simpl; done.
  - split; simpl; try done.
    + rewrite HS. rewrite <- !app_assoc. f_equiv.
      rewrite app_assoc. apply Permutation_app_comm.
    + rewrite length_app. simpl. lia.
  - split; simpl; done.
  - split; simpl; try done.
    + rewrite HS.
      pose proof (holding_insert pl k Receiving (Fetching i) H) as Hh.
      simpl in Hh. rewrite app_nil_r in Hh. rewrite Hh. simpl.
      by rewrite <- Permutation_middle.
    + by rewrite length_insert.
    + lia.
    + intros ->. specialize (HR eq_refl). rewrite Forall_lookup in HR.
      by specialize (HR _ _ H).
  - (* fetchDetail without error *)
    pose proof (holding_elem _ _ _ H) as Hin.
    assert (i ∉ ft) as Hni.
    { intros Hft. apply NoDup_app in HN as (_ & _ & HN).
      apply NoDup_app in HN as (_ & HN & _). by eapply HN. }
    split; simpl; try done.
    + rewrite HS.
      pose proof (holding_insert pl k (Fetching i) Receiving H) as Hh.
      simpl in Hh. rewrite <- Hh.
      rewrite <- !app_assoc. do 2 f_equiv. apply Permutation_app_comm.
    + intros j r0 Hj. destruct (decide (j = i)) as [->|Hne].
      * rewrite list_lookup_insert_eq by (by eapply lookup_lt_Some).
        rewrite decide_True by (apply elem_of_app; right; by left).
        specialize (HT i r0 Hj). rewrite decide_False in HT by done.
        rewrite H0 in HT. injection HT as ->. by rewrite H1.
      * rewrite list_lookup_insert_ne by done. rewrite (HT j r0 Hj).
        destruct (decide (j ∈ ft)) as [Hjf|Hjf].
        -- by rewrite decide_True by (apply elem_of_app; by left).
        -- by rewrite decide_False
             by (intros [?|?%list_elem_of_singleton]%elem_of_app; done).
    + by rewrite length_insert.
    + intros ->. specialize (HR eq_refl). rewrite Forall_lookup in HR.
      by specialize (HR _ _ H).
  - (* fetchDetail with an error *)
    pose proof (holding_elem _ _ _ H) as Hin.
    assert (i ∉ ft) as Hni.
    { intros Hft. apply NoDup_app in HN as (_ & _ & HN).
      apply NoDup_app in HN as (_ & HN & _). by eapply HN. }
    split; simpl; try done.
    + rewrite HS.
      pose proof (holding_insert pl k (Fetching i) Exited H) as Hh.
      simpl in Hh. rewrite <- Hh.
      rewrite <- !app_assoc. do 2 f_equiv. apply Permutation_app_comm.
    + intros j r0 Hj. destruct (decide (j = i)) as [->|Hne].
      * rewrite list_lookup_insert_eq by (by eapply lookup_lt_Some).
        rewrite decide_True by (apply elem_of_app; right; by left).
        specialize (HT i r0 Hj). rewrite decide_False in HT by done.
        rewrite H0 in HT. injection HT as ->. by rewrite H1.
      * rewrite list_lookup_insert_ne by done. rewrite (HT j r0 Hj).
        destruct (decide (j ∈ ft)) as [Hjf|Hjf].
        -- by rewrite decide_True by (apply elem_of_app; by left).
        -- by rewrite decide_False
             by (intros [?|?%list_elem_of_singleton]%elem_of_app; done).
    + by rewrite length_insert.
    + intros ->. specialize (HR eq_refl). rewrite Forall_lookup in HR.
      by specialize (HR _ _ H).
  - split; simpl; try done.
    + rewrite HS.
      pose proof (holding_insert pl k Receiving Exited H) as Hh.
      simpl in Hh. rewrite app_nil_r in Hh. by rewrite Hh.
    + by rewrite length_insert.
    + intros ->. specialize (HR eq_refl). rewrite Forall_lookup in HR.
      by specialize (HR _ _ H).
  - split; simpl; done.
Qed.

Lemma flow_inv_reachable rs s :
  reachable get Atoi refetch rs s →
  sched_inv refetch rs s ∧ once_inv s ∧ flow_inv get Atoi rs s.
Proof.
  unfold reachable. revert s.
  apply (rtc_ind_r (fun s => sched_inv refetch rs s ∧ once_inv s
                             ∧ flow_inv get Atoi rs s)).
  - split; [apply sched_inv_start|].
    split; [|apply flow_inv_start].
    apply (once_inv_reachable get Atoi refetch rs). apply rtc_refl.
  - intros s s' _ Hstep (HI & HO & HF). split; [by eapply sched_inv_step|].
    split; [by eapply once_inv_step|by eapply flow_inv_step].
Qed.
End FlowFacts.

Section ProgressFacts.
Variable get : string → result document.
Variable Atoi : string → Z.
Variable refetch : bool.

Lemma producer_progress st nx ch pl pd sn ft :
  length ch ≤ workers →
  (pd = Waiting → ch = [] → ∃ s', step get Atoi refetch (Sched st nx ch pl pd sn ft) s') →
  (∃ s', step get Atoi refetch (Sched st nx ch pl pd sn ft) s')
  ∨ pd = Returned
  ∨ pd = Waiting ∧ ch ≠ []
  ∨ (pd = Sending ∧ length ch = workers
     ∧ ∃ r, st !! nx = Some r ∧ eligible refetch r = true).
Proof.
  intros Hch Hwait. destruct pd.
  - destruct (st !! nx) as [r|] eqn:Hr.
    + destruct (eligible refetch r) eqn:He.
      * destruct (decide (length ch < workers)) as [Hlt|Hge].
        -- left. eexists. by eapply step_send.
        -- right. right. right. split; [done|]. split; [lia|]. by exists r.
      * left. eexists. by eapply step_skip.
    + left. eexists. by eapply step_close.
  - destruct ch as [|i ch].
    + left. by apply Hwait.
    + right. right. left. done.
  - right. by left.
Qed.

Lemma progress_inv (rs : list restaurant) (s : sched) :
  sched_inv refetch rs s → flow_inv get Atoi rs s →
  (∃ s', step get Atoi refetch s s') ∨ prod s = Returned ∨ blocked refetch s.
Proof.
  intros HI HF.
  destruct HI as [HL HA HS HN HC HP HFt HD HT].
  destruct HF as [_ _ HPl HCh HR].
  destruct s as [st nx ch pl pd sn ft]. unfold blocked. simpl in *.
  destruct (decide (Forall (fun w => w = Exited) pl)) as [Hall|Hsome].
  - assert (pd = Waiting → ch = [] →
            ∃ s', step get Atoi refetch (Sched st nx ch pl pd sn ft) s') as Hw.
    { intros -> ->. eexists. by apply step_return. }
    destruct (producer_progress st nx ch pl pd sn ft HCh Hw)
      as [?|[?|[[-> Hne]|(? & ? & ?)]]];
      [by left|by right; left| |by right; right].
    left. eexists. by apply step_return.
  - apply (not_Forall_Exists _) in Hsome.
    apply Exists_exists in Hsome as (w & Hw & Hne).
    apply list_elem_of_lookup in Hw as [k Hk].
    destruct w as [|i|]; [| |by destruct Hne].
    + destruct ch as [|i ch].
      * assert (pd = Waiting → @nil nat = [] →
                ∃ s', step get Atoi refetch (Sched st nx [] pl pd sn ft) s') as Hw.
        { intros -> _. eexists. by eapply step_exit. }
        destruct (producer_progress st nx [] pl pd sn ft HCh Hw)
          as [?|[?|[[-> Hnil]|(? & Hfull & ?)]]];
          [by left|by right; left|done|].
        unfold workers in Hfull. simpl in Hfull. lia.
      * left. eexists. by eapply step_recv.
    + left.
      assert (i ∈ scheduled refetch rs nx) as [Hi _]%elem_of_scheduled
        by (rewrite <- HS; by eapply HP).
      destruct (lookup_lt_is_Some_2 st i) as [r Hr]; [lia|].
      destruct (fetchDetail get Atoi r) as [r' [e|]] eqn:E.
      * eexists. by eapply step_fetch_err.
      * eexists. by eapply step_fetch_ok.
Qed.

(** X11. Every state an execution of [fetchDetails(rs)] reaches is of one
    of three kinds: the producer or a worker can take a step; or
    [fetchDetails] has returned; or the producer is blocked, sending a
    record into a full channel when every worker has exited. So an
    execution that does not return ends in the blocked state. *)
Theorem fetchDetails_progress (rs : list restaurant) (s : sched) :
  reachable get Atoi refetch rs s →
  (∃ s', step get Atoi refetch s s') ∨ prod s = Returned ∨ blocked refetch s.
Proof.
  intros (HI & HO & HF)%flow_inv_reachable. by eapply progress_inv.
Qed.



(** X12. In every state of an execution of [fetchDetails(rs)], the records
    sent are those in the channel, those a worker holds and those
    [fetchDetail] was called on, each of them once; the channel never holds
    more than 16 records; and once [fetchDetails] has returned, a record
    sent is in the channel still or [fetchDetail] was called on it. *)
Theorem fetchDetails_conserves (rs : list restaurant) (s : sched) :
  reachable get Atoi refetch rs s →
  sent s ≡ₚ chan s ++ holding (pool s) ++ fetched s
  ∧ NoDup (sent s)
  ∧ length (chan s) ≤ workers
  ∧ (prod s = Returned → sent s ≡ₚ chan s ++ fetched s).
Proof.
  intros (HI & [HN _] & [HS _ _ HC HR])%flow_inv_reachable.
  split; [done|]. split; [by rewrite HS|]. split; [done|].
  intros Hret. by rewrite HS, (holding_exited _ (HR Hret)).
Qed.

(** X13. [fetchDetails] neither adds, removes nor moves a record: in every
    state of an execution the slice has the length it had, a record that
    [fetchDetail] was not called on is as it was at the start, and a record
    it was called on is what [fetchDetail] makes of the record at the
    start. *)
Theorem fetchDetails_records (rs : list restaurant) (s : sched) :
  reachable get Atoi refetch rs s →
  length (store s) = length rs
  ∧ ∀ i r0, rs !! i = Some r0 →
      store s !! i
      = Some (if decide (i ∈ fetched s) then (fetchDetail get Atoi r0).1 else r0).
Proof.
  intros (HI & _ & HF)%flow_inv_reachable.
  split; [apply HI|apply HF].
Qed.



End ProgressFacts.

Lemma printRestaurants_loop (rs : list restaurant) (out : list string) :
  fold_left
    (fun out r =>
       if Nat.eqb (length (Inspections r)) 0 then out else out ++ [reportRow r])
    rs out
  = out ++ map reportRow (filter (fun r => Inspections r ≠ []) rs).
Proof.
  revert out. induction rs as [|r rs IH]; intros out; simpl.
  - by rewrite app_nil_r.
  - rewrite IH, filter_cons.
    destruct (decide (Inspections r ≠ [])) as [Hne|He].
    + destruct (Inspections r); [done|]. simpl. by rewrite <- app_assoc.
    + destruct (Inspections r); [done|]. by destruct He.
Qed.

(** X15. [printRestaurants] writes the two lines of the header and then
    one row for each record that has an inspection, in the order of the
    slice; a record without inspections gets no row, so that for records
    none of which has an inspection it writes the header alone. *)
Theorem printRestaurants_rows (rs : list restaurant) :
  printRestaurants rs
  = reportHeader ++ map reportRow (filter (fun r => Inspections r ≠ []) rs)
  ∧ length (printRestaurants rs)
    = 2 + length (filter (fun r => Inspections r ≠ []) rs)
  ∧ (Forall (fun r => Inspections r = []) rs → printRestaurants rs = reportHeader).
Proof.
  unfold printRestaurants. rewrite printRestaurants_loop.
  split; [done|]. split; [by rewrite length_app, length_map|].
  intros Hall. replace (filter (fun r => Inspections r ≠ []) rs) with (@nil restaurant).
  - by rewrite app_nil_r.
  - symmetry. induction Hall as [|r rs Hr _ IH]; [done|].
    rewrite filter_cons, decide_False by (by rewrite Hr; intros []). done.
Qed.

Lemma Split_second s :
  GoStrings.Split s quote !! 1 = None ↔ hasQuote s = false.
Proof.
  induction s as [|c s IH]; [done|]. simpl.
  destruct (Ascii.eqb c quote); simpl.
  - destruct (Split_cons s quote) as (p & ps & ->). done.
  - destruct (Split_cons s quote) as (p & ps & E). rewrite E in *. done.
Qed.

Lemma Base_nonempty path : GoPath.Base path ≠ "".
Proof.
  unfold GoPath.Base. destruct path; [done|].
  by destruct (GoPath.lastElement _).
Qed.

Section ListingFacts.
Variable getListing : result (list listingRow).
Variable resolveURL : string → string → result string.

Lemma listingRecords_None rows :
  listingRecords resolveURL rows = None ↔
  Exists (fun row => hasQuote (onclick row) = false) rows.
Proof.
  induction rows as [|row rows IH]; simpl.
  - split; [done|]. by intros ?%Exists_nil.
  - rewrite Exists_cons, <- IH, <- Split_second. unfold listingRecord.
    destruct (GoStrings.Split (onclick row) quote !! 1); [|by split; [left|]].
    destruct (listingRecords resolveURL rows); split; try done.
    + by intros [?|?].
    + by right.
Qed.

Lemma listingRecords_Some rows rs :
  listingRecords resolveURL rows = Some rs → Forall2 (listed resolveURL) rows rs.
Proof.
  revert rs. induction rows as [|row rows IH]; intros rs; simpl.
  - intros [= <-]. constructor.
  - destruct (listingRecord resolveURL row) as [r|] eqn:E; [|done].
    destruct (listingRecords resolveURL rows) as [rs'|]; [|done].
    intros [= <-]. constructor; [|by apply IH].
    unfold listed. split; [done|]. unfold listingRecord in E.
    destruct (GoStrings.Split (onclick row) quote !! 1); [|done].
    injection E as <-. simpl. repeat split. apply Base_nonempty.
Qed.

(** X16. [getRestaurants] panics, indexing a slice out of its range, if and
    only if the listing was fetched and the [onclick] attribute of one of
    its rows holds no single quote, as for a row without the attribute. *)
Theorem getRestaurants_panics :
  getRestaurants getListing resolveURL = Panics ↔
  ∃ rows, getListing = Ok rows
          ∧ Exists (fun row => hasQuote (onclick row) = false) rows.
Proof.
  unfold getRestaurants. destruct getListing as [rows|e].
  - destruct (listingRecords resolveURL rows) as [rs|] eqn:E.
    + split; [done|]. intros (rows' & [= <-] & Hex).
      apply listingRecords_None in Hex. congruence.
    + split; [|done]. intros _. exists rows. split; [done|].
      by apply listingRecords_None.
  - split; [done|]. by intros (rows & ? & _).
Qed.

(** X17. When [getRestaurants] returns records, there is one for each row
    of the listing, in the order of the rows, with the name, the community
    and the address of its row, an ID that is not empty, no inspections and
    the zero coordinate. So each of them is a record to fetch whatever
    [-refetch] is, and before the geocoding pass [getUBCRestaurants] selects
    none of them. *)
Theorem getRestaurants_fresh (rs : list restaurant) :
  getRestaurants getListing resolveURL = Returns (Ok rs) →
  (∃ rows, getListing = Ok rows ∧ Forall2 (listed resolveURL) rows rs)
  ∧ Forall (fun r => ∀ refetch, eligible refetch r = true) rs
  ∧ getUBCRestaurants {| Restaurants := rs; GeocodeCache := ∅ |} = [].
Proof.
  unfold getRestaurants. destruct getListing as [rows|e]; [|done].
  destruct (listingRecords resolveURL rows) as [rs'|] eqn:E; [|done].
  intros [= <-]. apply listingRecords_Some in E.
  split; [by exists rows|].
  assert (Forall (fun r => Inspections r = [] ∧ LatLong r = zeroLatLong) rs') as Hall.
  { apply Forall_lookup. intros i r Hi.
    destruct (Forall2_lookup_r _ _ _ _ _ E Hi) as (row & _ & Hl).
    by destruct Hl as (_ & _ & _ & _ & _ & ? & ?). }
  split.
  - eapply Forall_impl; [exact Hall|]. intros r [Hi _] refetch.
    unfold eligible. by rewrite Hi.
  - rewrite getUBCRestaurants_eq_filter. simpl. clear -Hall.
    induction Hall as [|r rs [_ Hz] _ IH]; [done|].
    rewrite filter_cons, decide_False by (by apply zero_not_west). done.
Qed.
End ListingFacts.

(** ** The pipeline *)

Lemma elem_of_pointersFrom rs n i :
  i ∈ pointersFrom n rs ↔ n ≤ i ∧ ∃ r, rs !! (i - n) = Some r ∧ westb r = true.
Proof.
  revert n. induction rs as [|r rs IH]; intros n; simpl.
  - rewrite elem_of_nil. split; [done|]. by intros (_ & r & ? & _).
  - assert (i ∈ pointersFrom (S n) rs ↔
            S n ≤ i ∧ ∃ r', (r :: rs) !! (i - n) = Some r' ∧ westb r' = true) as Hrest.
    { rewrite IH. split.
      - intros (Hle & r' & Hr' & Hw). split; [done|]. exists r'. split; [|done].
        replace (i - n) with (S (i - S n)) by lia. done.
      - intros (Hle & r' & Hr' & Hw). split; [done|]. exists r'. split; [|done].
        replace (i - n) with (S (i - S n)) in Hr' by lia. done. }
    destruct (westb r) eqn:W.
    + rewrite elem_of_cons, Hrest. split.
      * intros [->|(Hle & Hex)]; [|split; [lia|done]].
        split; [done|]. exists r. by rewrite Nat.sub_diag.
      * intros (Hle & r' & Hr' & Hw).
        destruct (decide (i = n)) as [->|Hne]; [by left|right].
        split; [lia|]. by exists r'.
    + rewrite Hrest. split.
      * intros (Hle & Hex). split; [lia|done].
      * intros (Hle & r' & Hr' & Hw).
        destruct (decide (i = n)) as [->|Hne].
        -- rewrite Nat.sub_diag in Hr'. simpl in Hr'. congruence.
        -- split; [lia|]. by exists r'.
Qed.

Lemma NoDup_pointersFrom rs n : NoDup (pointersFrom n rs).
Proof.
  revert n. induction rs as [|r rs IH]; intros n; simpl; [constructor|].
  destruct (westb r); [|done]. apply NoDup_cons. split; [|done].
  intros [Hle _]%elem_of_pointersFrom. lia.
Qed.

Lemma deref_cons rs p ps :
  deref rs (p :: ps)
  = match rs !! p with
    | Some r => r :: deref rs ps
    | None => deref rs ps
    end.
Proof. done. Qed.

Lemma deref_pointersFrom pre rs :
  deref (pre ++ rs) (pointersFrom (length pre) rs) = filter westOfBorder rs.
Proof.
  revert pre. induction rs as [|r rs IH]; intros pre; [done|].
  simpl. specialize (IH (pre ++ [r])).
  rewrite <- app_assoc, length_app, Nat.add_1_r in IH. simpl in IH.
  rewrite filter_cons.
  destruct (decide (westOfBorder r)) as [W|W]; unfold westOfBorder in W;
    unfold westb.
  - rewrite W, deref_cons, list_lookup_middle by done. by rewrite IH.
  - apply not_true_is_false in W. by rewrite W.
Qed.

Lemma deref_ubcPointers rs :
  deref rs (ubcPointers rs) = filter westOfBorder rs.
Proof. apply (deref_pointersFrom [] rs). Qed.

Lemma pointersFrom_LatLong rs rs' n :
  Forall2 (fun r r' => LatLong r' = LatLong r) rs rs' →
  pointersFrom n rs' = pointersFrom n rs.
Proof.
  intros H. revert n. induction H as [|r r' rs rs' Hr _ IH]; intros n; [done|].
  simpl. unfold westb. rewrite Hr. by rewrite IH.
Qed.

Lemma length_assign ps us rs : length (assign ps us rs) = length rs.
Proof.
  revert us rs. induction ps as [|i ps IH]; intros us rs; [done|].
  destruct us as [|u us]; [done|]. simpl. by rewrite IH, length_insert.
Qed.

Lemma assign_other ps us rs i :
  i ∉ ps → assign ps us rs !! i = rs !! i.
Proof.
  revert us rs. induction ps as [|p ps IH]; intros us rs Hi; [done|].
  destruct us as [|u us]; [done|]. simpl.
  apply not_elem_of_cons in Hi as [Hne Hi].
  rewrite IH by done. by rewrite list_lookup_insert_ne.
Qed.

Lemma assign_at ps us rs j p :
  NoDup ps → length us = length ps → Forall (fun p => p < length rs) ps →
  ps !! j = Some p → assign ps us rs !! p = us !! j.
Proof.
  revert us rs j. induction ps as [|i ps IH]; intros us rs j Hnd Hlen Hlt Hj; [done|].
  destruct us as [|u us]; [done|]. simpl in *.
  apply NoDup_cons in Hnd as [Hni Hnd]. apply Forall_cons in Hlt as [Hi Hlt].
  destruct j as [|j]; simpl in *.
  - injection Hj as <-. rewrite assign_other by done.
    by rewrite list_lookup_insert_eq.
  - apply IH; [done|lia| |done].
    eapply Forall_impl; [exact Hlt|]. intros q Hq. by rewrite length_insert.
Qed.

Lemma deref_lookup rs ps j :
  Forall (fun p => p < length rs) ps →
  deref rs ps !! j = ps !! j ≫= (rs !!.).
Proof.
  revert j. induction ps as [|p ps IH]; intros j Hlt; [done|].
  apply Forall_cons in Hlt as [Hp Hlt]. rewrite deref_cons.
  destruct (lookup_lt_is_Some_2 rs p Hp) as [r Hr]. rewrite Hr.
  destruct j as [|j]; simpl; [done|]. by apply IH.
Qed.

Lemma westb_westOfBorder r : westb r = true ↔ westOfBorder r.
Proof. done. Qed.

Lemma length_deref rs ps :
  Forall (fun p => p < length rs) ps → length (deref rs ps) = length ps.
Proof.
  induction 1 as [|p ps Hp _ IH]; [done|]. rewrite deref_cons.
  destruct (lookup_lt_is_Some_2 rs p Hp) as [r ->]. simpl. by rewrite IH.
Qed.

Lemma ubcPointers_lt rs : Forall (fun p => p < length rs) (ubcPointers rs).
Proof.
  apply Forall_forall. intros p (_ & r & Hr & _)%elem_of_pointersFrom.
  rewrite Nat.sub_0_r in Hr. by eapply lookup_lt_Some.
Qed.

Lemma StronglySorted_filter {A} (R : relation A) (P : A → Prop)
    `{!∀ x, Decision (P x)} (l : list A) :
  StronglySorted R l → StronglySorted R (filter P l).
Proof.
  induction 1 as [|a l _ IH Ha]; [constructor|].
  rewrite filter_cons. destruct (decide (P a)); [|done].
  constructor; [done|]. apply Forall_forall.
  intros x [_ Hx]%list_elem_of_filter. rewrite Forall_forall in Ha. by apply Ha.
Qed.

Section PipelineFacts.
Variable openRead : opening.
Variable Decode : string → db → db * option error.
Variable getListing : result (list listingRow).
Variable resolveURL : string → string → result string.
Variable Geocode : list string → string → result (float * float).
Variable get : string → result document.
Variable Atoi : string → Z.
Variable refetch : bool.
Variable time_Parse : string → string → result Z.
Variable time_AddDate : Z → Z → Z → Z → Z.
Variable now : Z.

Local Notation "'runs'" :=
  (generateRestaurantsList openRead Decode getListing resolveURL Geocode get Atoi
     refetch time_Parse time_AddDate now).

Lemma assign_written rs2 s :
  reachable get Atoi refetch (filter westOfBorder rs2) s →
  Forall2 (written get Atoi) rs2 (assign (ubcPointers rs2) (store s) rs2).
Proof.
  intros Hs.
  apply flow_inv_reachable in Hs as (HI & _ & HF).
  pose proof (inv_length _ _ _ HI) as Hlen.
  pose proof (flow_store _ _ _ _ HF) as Hstore.
  pose proof (ubcPointers_lt rs2) as Hlt.
  apply Forall2_same_length_lookup_2; [by rewrite length_assign|].
  intros i r r3 Hr Hr3.
  destruct (decide (i ∈ ubcPointers rs2)) as [Hin|Hni].
  - pose proof Hin as (_ & r' & Hr' & Hw)%elem_of_pointersFrom.
    rewrite Nat.sub_0_r, Hr in Hr'. injection Hr' as <-.
    apply list_elem_of_lookup in Hin as [j Hj].
    rewrite (assign_at _ _ _ j i) in Hr3;
      [|apply NoDup_pointersFrom
       |by rewrite Hlen, <- deref_ubcPointers, length_deref|done|done].
    assert (filter westOfBorder rs2 !! j = Some r) as Hubc.
    { rewrite <- deref_ubcPointers, deref_lookup, Hj by done. done. }
    rewrite (Hstore j r Hubc) in Hr3. injection Hr3 as <-.
    case_decide; [right|by left]. done.
  - rewrite assign_other in Hr3 by done. left. congruence.
Qed.

Lemma run_records d2 s rs err :
  reachable get Atoi refetch (getUBCRestaurants d2) s →
  computeInfractionsPastYear time_Parse time_AddDate now
    (assign (ubcPointers (Restaurants d2)) (store s) (Restaurants d2))
  = (rs, err) →
  Forall2 (processed get Atoi) (Restaurants d2) rs.
Proof.
  rewrite getUBCRestaurants_eq_filter. intros Hs Hc.
  pose proof (assign_written _ _ Hs) as Hw.
  pose proof (statsLoop_frame time_Parse (time_AddDate now (-1) 0 0)
                (assign (ubcPointers (Restaurants d2)) (store s) (Restaurants d2)))
    as Hf.
  unfold computeInfractionsPastYear in Hc. rewrite Hc in Hf. simpl in Hf.
  eapply Forall2_trans; [|exact Hw|exact Hf].
  intros r r3 r4 H1 H2. by exists r3.
Qed.

Lemma processed_LatLong r r' : processed get Atoi r r' → LatLong r' = LatLong r.
Proof.
  intros (r3 & [->|[_ ->]] & ->); simpl; [done|apply fetchDetail_LatLong].
Qed.

Lemma processed_url r r' :
  processed get Atoi r r' → MoreDetailsURL r' = MoreDetailsURL r.
Proof.
  intros (r3 & [->|[_ ->]] & ->); simpl; [done|apply fetchDetail_url].
Qed.

Lemma processed_east r r' :
  processed get Atoi r r' → ¬ westOfBorder r → Inspections r' = Inspections r.
Proof. intros (r3 & [->|[? ->]] & ->); simpl; done. Qed.

Lemma run_ubc d2 s rs err :
  reachable get Atoi refetch (getUBCRestaurants d2) s →
  computeInfractionsPastYear time_Parse time_AddDate now
    (assign (ubcPointers (Restaurants d2)) (store s) (Restaurants d2))
  = (rs, err) →
  deref rs (ubcPointers (Restaurants d2)) = filter westOfBorder rs.
Proof.
  intros Hs Hc. pose proof (run_records _ _ _ _ Hs Hc) as Hp.
  rewrite <- deref_ubcPointers. f_equal. unfold ubcPointers. symmetry.
  apply pointersFrom_LatLong.
  eapply Forall2_impl; [exact Hp|]. apply processed_LatLong.
Qed.

(** X18. A run of [generateRestaurantsList] that returns no error has
    printed the header and, after it, one row for each record of the store
    it saves that lies west of the border and has an inspection, and for no
    other record, in an order in which no record is followed by one with
    fewer infractions in the past year. *)
Theorem generateRestaurantsList_report (o : outcome) :
  runs o →
  finished o = Finished None →
  ∃ d l,
    saved o = Some d
    ∧ printed o = reportHeader ++ map reportRow l
    ∧ l ≡ₚ filter (fun r => Inspections r ≠ [] ∧ westOfBorder r) (Restaurants d)
    ∧ sortedByPastYear l.
Proof.
  intros Hrun Hfin. destruct Hrun; simpl in *; try done.
  eexists _, (filter (fun r => Inspections r ≠ []) sorted).
  split; [done|]. split; [unfold printRestaurants; apply printRestaurants_loop|].
  split; [|by apply StronglySorted_filter].
  simpl. rewrite <- list_filter_filter. f_equiv.
  by erewrite <- run_ubc.
Qed.

Lemma refresh_cache d0 d1 :
  refresh getListing resolveURL refetch d0 = Returns (Ok d1) →
  GeocodeCache d1 = GeocodeCache d0.
Proof.
  unfold refresh.
  destruct (Nat.eqb (length (Restaurants d0)) 0 || refetch); [|by intros [= <-]].
  destruct (getRestaurants getListing resolveURL) as [[rs|e]|]; [|done|done].
  by intros [= <-].
Qed.

Lemma run_cache d1 d2 calls err :
  geocodeRestaurants Geocode d1 [] = (d2, calls, err) →
  GeocodeCache d1 ⊆ GeocodeCache d2
  ∧ NoDup calls
  ∧ ∀ a, a ∈ calls → GeocodeCache d1 !! a = None.
Proof.
  pose proof (geocodeLoop_cache Geocode (Restaurants d1) (GeocodeCache d1) [])
    as (Hsub & (new & Hnew & Hnd & Hmiss) & _).
  unfold geocodeRestaurants.
  destruct (geocodeLoop Geocode (Restaurants d1) (GeocodeCache d1) [])
    as [[[rs' cache'] calls'] err'].
  simpl in *. intros [= <- <- <-]. simpl. by subst calls'.
Qed.

(** X19. Whenever [load] returns no error, the store is saved when the run
    ends, be it with an error, with a panic or with the report. The cache
    saved holds every entry of the cache loaded, unchanged; and the run
    sends the geocoding service no address twice, and no address for which
    the cache loaded held an entry. *)
Theorem generateRestaurantsList_cache (o : outcome) (d0 : db) :
  runs o →
  load openRead Decode makeDB = (d0, None) →
  ∃ d, saved o = Some d
       ∧ GeocodeCache d0 ⊆ GeocodeCache d
       ∧ NoDup (requests o)
       ∧ ∀ a, a ∈ requests o → GeocodeCache d0 !! a = None.
Proof.
  intros Hrun Hload.
  destruct Hrun as [d e Hl|d0' e Hl Hr|d0' Hl Hr|d0' d1 d2 calls e Hl Hr Hg
                   |d0' d1 d2 calls s rs e Hl Hr Hg|d0' d1 d2 calls s rs sorted Hl Hr Hg];
    rewrite Hl in Hload; [done|..]; injection Hload as ->; simpl.
  - exists d0. split; [done|]. split; [done|]. split; [constructor|].
    by intros a ?%elem_of_nil.
  - exists d0. split; [done|]. split; [done|]. split; [constructor|].
    by intros a ?%elem_of_nil.
  - apply refresh_cache in Hr. apply run_cache in Hg. rewrite Hr in Hg.
    by exists d2.
  - apply refresh_cache in Hr. apply run_cache in Hg. rewrite Hr in Hg.
    eexists. split; [done|]. done.
  - apply refresh_cache in Hr. apply run_cache in Hg. rewrite Hr in Hg.
    eexists. split; [done|]. done.
Qed.

Lemma elem_of_pagesOf ubc fetched url :
  url ∈ pagesOf ubc fetched →
  ∃ r, r ∈ ubc ∧ MoreDetailsURL r = url.
Proof.
  unfold pagesOf. intros (i & _ & Hi)%list_elem_of_omap.
  destruct (ubc !! i) as [r|] eqn:E; [|done]. injection Hi as <-.
  exists r. split; [|done]. by eapply list_elem_of_lookup_2.
Qed.

Lemma run_pages d2 s rs err url :
  reachable get Atoi refetch (getUBCRestaurants d2) s →
  computeInfractionsPastYear time_Parse time_AddDate now
    (assign (ubcPointers (Restaurants d2)) (store s) (Restaurants d2))
  = (rs, err) →
  url ∈ pagesOf (getUBCRestaurants d2) (fetched s) →
  ∃ r, r ∈ rs ∧ westOfBorder r ∧ MoreDetailsURL r = url.
Proof.
  intros Hs Hc (r0 & Hin & <-)%elem_of_pagesOf.
  rewrite getUBCRestaurants_eq_filter in Hin.
  apply list_elem_of_filter in Hin as [Hw Hin].
  apply list_elem_of_lookup in Hin as [p Hp].
  pose proof (run_records _ _ _ _ Hs Hc) as Hrec.
  destruct (Forall2_lookup_l _ _ _ _ _ Hrec Hp) as (r4 & Hr4 & Hproc).
  exists r4. split; [by eapply list_elem_of_lookup_2|].
  split; [|by apply processed_url].
  unfold westOfBorder in *. by rewrite (processed_LatLong _ _ Hproc).
Qed.

(** X20. Every detail page a run of [generateRestaurantsList] asks the web
    server for is the page of a record of the store it saves that lies west
    of the border: the page of no other record is fetched. *)
Theorem generateRestaurantsList_pages (o : outcome) (url : string) :
  runs o →
  url ∈ pages o →
  ∃ d r, saved o = Some d ∧ r ∈ Restaurants d
         ∧ westOfBorder r ∧ MoreDetailsURL r = url.
Proof.
  intros Hrun Hin.
  destruct Hrun as [d e Hl|d0 e Hl|d0 Hl|d0 d1 d2 calls e Hl
                   |d0 d1 d2 calls s rs e Hl ? Hg Hs ? Hc
                   |d0 d1 d2 calls s rs sorted Hl ? Hg Hs ? Hc];
    simpl in *; try (by apply elem_of_nil in Hin).
  - destruct (run_pages _ _ _ _ _ Hs Hc Hin) as (r & ? & ? & ?).
    by eexists _, r.
  - destruct (run_pages _ _ _ _ _ Hs Hc Hin) as (r & ? & ? & ?).
    by eexists _, r.
Qed.

(** X21. After a run of [generateRestaurantsList] that returns no error,
    every record of the store it saves, also one whose page was not
    fetched, carries the two sums over the inspections it is saved with, in
    Go's [int]. *)
Theorem generateRestaurantsList_statistics (o : outcome) (d : db) :
  runs o →
  finished o = Finished None →
  saved o = Some d →
  Forall (fun r =>
            InfractionsPastYear r
            = GoInt.wrap (sumPastYear time_Parse (time_AddDate now (-1) 0 0)
                            (Inspections r))
            ∧ InfractionsTotal r = GoInt.wrap (sumAll (Inspections r)))
    (Restaurants d).
Proof.
  intros Hrun Hfin Hsaved.
  destruct Hrun as [| | | |
                   |d0 d1 d2 calls s rs sorted Hl ? Hg Hs ? Hc]; simpl in *; try done.
  injection Hsaved as <-. simpl.
  pose proof (statsLoop_map time_Parse time_AddDate (time_AddDate now (-1) 0 0)
                (assign (ubcPointers (Restaurants d2)) (store s) (Restaurants d2)))
    as Hmap.
  unfold computeInfractionsPastYear in Hc.
  rewrite Hc in Hmap. simpl in Hmap. rewrite (Hmap eq_refl).
  apply Forall_fmap, Forall_forall. by intros r _.
Qed.

Lemma geocodeLoop_Inspections rs cache calls :
  Forall2 (fun r r' => Inspections r' = Inspections r) rs
    (geocodeLoop Geocode rs cache calls).1.1.1.
Proof.
  revert cache calls. induction rs as [|r rs IH]; intros cache calls; simpl;
    [constructor|].
  destruct (negb (String.eqb (Community r) vancouverWestside)).
  - specialize (IH cache calls).
    destruct (geocodeLoop Geocode rs cache calls) as [[[??]?]?]. by constructor.
  - destruct (geocode Geocode (SiteAddress r) cache calls) as [[[ll|e] c] k].
    + specialize (IH c k).
      destruct (geocodeLoop Geocode rs c k) as [[[??]?]?]. by constructor.
    + simpl. apply Forall2_same_length_lookup_2; [done|].
      intros i x y Hx Hy. congruence.
Qed.

(** X22. On a run with [-refetch] in which the listing is fetched and each
    of its rows holds a quoted address, the store saved has one record for
    each row of the listing, and every record in it that does not lie west
    of the border has no inspections: the records loaded are replaced by
    those of the listing, and only the pages west of the border are
    fetched again. *)
Theorem generateRestaurantsList_refresh (o : outcome) (d : db)
    (rows : list listingRow) :
  runs o →
  refetch = true →
  getListing = Ok rows →
  Forall (fun row => hasQuote (onclick row) = true) rows →
  saved o = Some d →
  length (Restaurants d) = length rows
  ∧ Forall (fun r => ¬ westOfBorder r → Inspections r = []) (Restaurants d).
Proof.
  intros Hrun Href Hrows Hq Hsaved.
  assert (∃ rs0, getRestaurants getListing resolveURL = Returns (Ok rs0)
                 ∧ Forall2 (listed resolveURL) rows rs0) as (rs0 & Hget & Hl0).
  { unfold getRestaurants. rewrite Hrows.
    destruct (listingRecords resolveURL rows) as [rs0|] eqn:E.
    - exists rs0. split; [done|]. by apply listingRecords_Some.
    - apply listingRecords_None in E.
      apply Exists_exists in E as (row & Hin & Hno).
      rewrite Forall_forall in Hq. specialize (Hq row Hin). congruence. }
  assert (∀ d0, refresh getListing resolveURL refetch d0
                = Returns (Ok {| Restaurants := rs0; GeocodeCache := GeocodeCache d0 |}))
    as Hrefresh.
  { intros d0. unfold refresh. by rewrite Href, orb_true_r, Hget. }
  assert (Forall2 (fun (row : listingRow) r => Inspections r = []) rows rs0) as Hfresh.
  { eapply Forall2_impl; [exact Hl0|]. by intros row r (_ & _ & _ & _ & _ & ? & _). }
  assert (∀ d1 d2 calls err,
            geocodeRestaurants Geocode d1 [] = (d2, calls, err) →
            Restaurants d1 = rs0 →
            Forall2 (fun (row : listingRow) r => Inspections r = []) rows
              (Restaurants d2)) as Hgeo.
  { intros d1 d2 calls err Hg Hd1.
    pose proof (geocodeLoop_Inspections (Restaurants d1) (GeocodeCache d1) []) as HI.
    rewrite <- geocodeRestaurants_Restaurants, Hg in HI. simpl in HI.
    rewrite Hd1 in HI.
    eapply Forall2_trans; [|exact Hfresh|exact HI].
    intros row r r' H1 H2. congruence. }
  assert (∀ d2 s rs err,
            Forall2 (fun (row : listingRow) r => Inspections r = []) rows
              (Restaurants d2) →
            reachable get Atoi refetch (getUBCRestaurants d2) s →
            computeInfractionsPastYear time_Parse time_AddDate now
              (assign (ubcPointers (Restaurants d2)) (store s) (Restaurants d2))
            = (rs, err) →
            length rs = length rows
            ∧ Forall (fun r => ¬ westOfBorder r → Inspections r = []) rs) as Hend.
  { intros d2 s rs err H2 Hs Hc.
    pose proof (run_records _ _ _ _ Hs Hc) as Hrec.
    split.
    - rewrite <- (Forall2_length _ _ _ Hrec). symmetry.
      by eapply Forall2_length.
    - apply Forall_lookup. intros i r4 Hi Hw.
      destruct (Forall2_lookup_r _ _ _ _ _ Hrec Hi) as (r2 & Hr2 & Hp).
      destruct (Forall2_lookup_r _ _ _ _ _ H2 Hr2) as (row & _ & Hnil).
      rewrite (processed_east _ _ Hp); [done|].
      unfold westOfBorder in *. by rewrite <- (processed_LatLong _ _ Hp). }
  destruct Hrun as [d' e Hl|d0 e Hl Hr|d0 Hl Hr|d0 d1 d2 calls e Hl Hr Hg
                   |d0 d1 d2 calls s rs e Hl Hr Hg Hs ? Hc
                   |d0 d1 d2 calls s rs sorted Hl Hr Hg Hs ? Hc];
    simpl in *; try done; try (rewrite Hrefresh in Hr; try done);
    injection Hsaved as <-; injection Hr as <-.
  - pose proof (Hgeo _ _ _ _ Hg eq_refl) as H2. split.
    + symmetry. by eapply Forall2_length.
    + apply Forall_lookup. intros i r Hi _.
      by destruct (Forall2_lookup_r _ _ _ _ _ H2 Hi) as (row & _ & ?).
  - apply (Hend _ _ _ _ (Hgeo _ _ _ _ Hg eq_refl) Hs Hc).
  - apply (Hend _ _ _ _ (Hgeo _ _ _ _ Hg eq_refl) Hs Hc).
Qed.
End PipelineFacts.

(** ** A run of the pipeline *)

Lemma DemoRun_returned :
  reachable DemoRun.serverUp DemoRun.atoi true DemoRun.ubc DemoRun.returned.
Proof.
  unfold reachable, start.
  eapply rtc_l; [eapply step_send; [reflexivity|reflexivity|unfold workers; simpl; lia]|].
  eapply rtc_l; [eapply (step_recv _ _ _ _ _ _ _ _ _ _ 0); reflexivity|].
  eapply rtc_l; [eapply (step_fetch_ok _ _ _ _ _ _ _ _ _ _ 0); reflexivity|].
  eapply rtc_l; [eapply step_close; reflexivity|].
  etrans;
    [apply (exit_all DemoRun.serverUp DemoRun.atoi true _ _ Waiting _ _ 0 workers);
     done|].
  apply rtc_once, step_return.
  apply Forall_forall. by intros w ->%elem_of_replicate_inv.
Qed.

Lemma DemoRun_runs :
  generateRestaurantsList NotExist DemoRun.decode (Ok DemoRun.rows) DemoRun.resolve
    Demo.serviceCampus DemoRun.serverUp DemoRun.atoi true
    GoTime.Parse GoTime.AddDate Demo.noon DemoRun.done.
Proof.
  apply (run_reports _ _ _ _ _ _ _ _ _ _ _
           makeDB DemoRun.d1 DemoRun.d2 DemoRun.calls DemoRun.returned
           DemoRun.records DemoRun.sorted).
  - reflexivity.
  - reflexivity.
  - by vm_compute.
  - apply DemoRun_returned.
  - reflexivity.
  - by vm_compute.
  - by vm_compute.
  - repeat constructor.
Qed.



Lemma fetchDetails_steps_bounded_witness : 4 ≤ 3 * length DemoRun.ubc + 18.
Proof.
  eapply (fetchDetails_steps_bounded DemoRun.serverUp DemoRun.atoi true DemoRun.ubc 4).
  unfold start.
  eapply nsteps_l;
    [eapply step_send; [reflexivity|reflexivity|unfold workers; simpl; lia]|].
  eapply nsteps_l; [eapply (step_recv _ _ _ _ _ _ _ _ _ _ 0); reflexivity|].
  eapply nsteps_l; [eapply (step_fetch_ok _ _ _ _ _ _ _ _ _ _ 0); reflexivity|].
  eapply nsteps_l; [eapply step_close; reflexivity|].
  apply nsteps_O.
Defined.

Lemma fetchDetails_progress_witness :
  (∃ s', step Demo.serverDown Demo.atoi0 false Demo.blockedState s')
  ∨ prod Demo.blockedState = Returned
  ∨ blocked false Demo.blockedState.
Proof.
  apply (fetchDetails_progress Demo.serverDown Demo.atoi0 false Demo.unfetched33).
  apply blockedState_reachable.
Defined.

Lemma fetchDetails_conserves_witness :
  sent Demo.blockedState
  ≡ₚ chan Demo.blockedState ++ holding (pool Demo.blockedState)
     ++ fetched Demo.blockedState
  ∧ NoDup (sent Demo.blockedState)
  ∧ length (chan Demo.blockedState) ≤ workers
  ∧ (prod Demo.blockedState = Returned →
     sent Demo.blockedState ≡ₚ chan Demo.blockedState ++ fetched Demo.blockedState).
Proof.
  apply (fetchDetails_conserves Demo.serverDown Demo.atoi0 false Demo.unfetched33).
  apply blockedState_reachable.
Defined.

Lemma fetchDetails_records_witness :
  length (store DemoRun.returned) = length DemoRun.ubc
  ∧ ∀ i r0, DemoRun.ubc !! i = Some r0 →
      store DemoRun.returned !! i
      = Some (if decide (i ∈ fetched DemoRun.returned)
              then (fetchDetail DemoRun.serverUp DemoRun.atoi r0).1 else r0).
Proof.
  apply (fetchDetails_records DemoRun.serverUp DemoRun.atoi true).
  apply DemoRun_returned.
Defined.


Lemma getRestaurants_fresh_witness :
  (∃ rows, Ok DemoRun.rows = Ok rows
           ∧ Forall2 (listed DemoRun.resolve) rows DemoRun.listedRecords)
  ∧ Forall (fun r => ∀ refetch, eligible refetch r = true) DemoRun.listedRecords
  ∧ getUBCRestaurants {| Restaurants := DemoRun.listedRecords; GeocodeCache := ∅ |} = [].
Proof.
  apply (getRestaurants_fresh (Ok DemoRun.rows) DemoRun.resolve DemoRun.listedRecords).
  reflexivity.
Defined.

Lemma generateRestaurantsList_report_witness :
  ∃ d l,
    saved DemoRun.done = Some d
    ∧ printed DemoRun.done = reportHeader ++ map reportRow l
    ∧ l ≡ₚ filter (fun r => Inspections r ≠ [] ∧ westOfBorder r) (Restaurants d)
    ∧ sortedByPastYear l.
Proof.
  apply (generateRestaurantsList_report NotExist DemoRun.decode (Ok DemoRun.rows)
           DemoRun.resolve Demo.serviceCampus DemoRun.serverUp DemoRun.atoi true
           GoTime.Parse GoTime.AddDate Demo.noon DemoRun.done).
  - apply DemoRun_runs.
  - reflexivity.
Defined.

Lemma generateRestaurantsList_cache_witness :
  ∃ d, saved DemoRun.done = Some d
       ∧ GeocodeCache makeDB ⊆ GeocodeCache d
       ∧ NoDup (requests DemoRun.done)
       ∧ ∀ a, a ∈ requests DemoRun.done → GeocodeCache makeDB !! a = None.
Proof.
  apply (generateRestaurantsList_cache NotExist DemoRun.decode (Ok DemoRun.rows)
           DemoRun.resolve Demo.serviceCampus DemoRun.serverUp DemoRun.atoi true
           GoTime.Parse GoTime.AddDate Demo.noon DemoRun.done makeDB).
  - apply DemoRun_runs.
  - reflexivity.
Defined.

Lemma generateRestaurantsList_pages_witness :
  ∃ d r, saved DemoRun.done = Some d ∧ r ∈ Restaurants d
         ∧ westOfBorder r
         ∧ MoreDetailsURL r = "https://inspections.vcha.ca/FoodPremises/Details/A".
Proof.
  apply (generateRestaurantsList_pages NotExist DemoRun.decode (Ok DemoRun.rows)
           DemoRun.resolve Demo.serviceCampus DemoRun.serverUp DemoRun.atoi true
           GoTime.Parse GoTime.AddDate Demo.noon DemoRun.done).
  - apply DemoRun_runs.
  - assert (pages DemoRun.done
            = ["https://inspections.vcha.ca/FoodPremises/Details/A"]) as ->
      by (by vm_compute).
    by left.
Defined.

Lemma generateRestaurantsList_statistics_witness :
  Forall (fun r =>
            InfractionsPastYear r
            = GoInt.wrap (sumPastYear GoTime.Parse (GoTime.AddDate Demo.noon (-1) 0 0)
                            (Inspections r))
            ∧ InfractionsTotal r = GoInt.wrap (sumAll (Inspections r)))
    (Restaurants {| Restaurants := DemoRun.records;
                    GeocodeCache := GeocodeCache DemoRun.d2 |}).
Proof.
  apply (generateRestaurantsList_statistics NotExist DemoRun.decode (Ok DemoRun.rows)
           DemoRun.resolve Demo.serviceCampus DemoRun.serverUp DemoRun.atoi true
           GoTime.Parse GoTime.AddDate Demo.noon DemoRun.done).
  - apply DemoRun_runs.
  - reflexivity.
  - reflexivity.
Defined.

Lemma generateRestaurantsList_refresh_witness :
  length (Restaurants {| Restaurants := DemoRun.records;
                         GeocodeCache := GeocodeCache DemoRun.d2 |})
  = length DemoRun.rows
  ∧ Forall (fun r => ¬ westOfBorder r → Inspections r = [])
      (Restaurants {| Restaurants := DemoRun.records;
                      GeocodeCache := GeocodeCache DemoRun.d2 |}).
Proof.
  apply (generateRestaurantsList_refresh NotExist DemoRun.decode (Ok DemoRun.rows)
           DemoRun.resolve Demo.serviceCampus DemoRun.serverUp DemoRun.atoi true
           GoTime.Parse GoTime.AddDate Demo.noon DemoRun.done).
  - apply DemoRun_runs.
  - reflexivity.
  - reflexivity.
  - repeat constructor.
  - reflexivity.
Defined.
